(** * Chaos: chaos-game point clouds and the pseudo Hilbert curve

    A shallow embedding of [SpaceFillingCurves.py] (classes [HilbertCurve],
    [PeanoCurve] and [Dithering]) and of [ChaosGame.py] (class [ChaosGame]),
    with the properties the specification states about them and further
    properties of the code.

    Python integers are unbounded, so they are [Z]; [x & 3] is [Z.land x 3],
    [x >> 2] is [Z.shiftr x 2], [n // 2] is [n / 2] and [a % b] is
    [a mod b] (both floor, as in Python, for a positive divisor). *)

From Stdlib Require Import ZArith QArith List Bool Lia String Reals Lra.
From Stdlib Require Lqa.
Import ListNotations.

Local Open Scope Z_scope.

(* ================================================================== *)
(** * Part I: the Hilbert index-to-coordinate mapping                  *)
(* ================================================================== *)

Module Hilbert.

(** [HilbertCurve._bit_mask]: [return x & 3]. *)
Definition _bit_mask (x : Z) : Z := Z.land x 3.

(** The tuple [positions] of [_hilbert_curve_x2xy]. *)
Definition positions : list (Z * Z) := [(0, 0); (0, 1); (1, 1); (1, 0)].

(** The body of the [if i == 0: ... elif i == 3: ...] chain: the new [(x, y)]
    for the digit [i] and the half side [n2].  The chain has no [else]; a
    digit outside 0..3 would leave [(x, y)] as it is. *)
Definition quadrant (n2 i x y : Z) : Z * Z :=
  if i =? 0 then (y, x)
  else if i =? 1 then (x, y + n2)
  else if i =? 2 then (x + n2, y + n2)
  else if i =? 3 then ((2 * n2 - 1) - y, (n2 - 1) - x)
  else (x, y).

(** The loop [while n <= self.N: ...; index = index >> 2; n *= 2].  Each unit
    of [fuel] pays for one evaluation of the loop test; [None] means the fuel
    ran out before the test failed. *)
Fixpoint hilbert_while (fuel : nat) (N n index x y : Z) : option (Z * Z) :=
  match fuel with
  | O => None
  | S fuel' =>
      if n <=? N then
        let n2 := n / 2 in
        let i := _bit_mask index in
        let '(x', y') := quadrant n2 i x y in
        hilbert_while fuel' N (n * 2) (Z.shiftr index 2) x' y'
      else Some (x, y)
  end.

(** [HilbertCurve._hilbert_curve_x2xy], for an object whose field [self.N] is
    [N].  [positions[...]] is a tuple subscript: [nth_error] on the masked
    index, which is always one of 0..3.  [n] starts at 4 and doubles, so the
    test [n <= N] is evaluated at most [N + 1] times (lemma
    [hilbert_while_fuel]). *)
Definition _hilbert_curve_x2xy (N index : Z) : option (Z * Z) :=
  match nth_error positions (Z.to_nat (_bit_mask index)) with
  | None => None
  | Some tmp =>
      let index := Z.shiftr index 2 in
      let '(x, y) := tmp in
      hilbert_while (S (Z.to_nat N)) N 4 index x y
  end.

(** [range(n)] for an integer [n]: [0, 1, ..., n-1] (empty when [n <= 0]). *)
Definition range (n : Z) : list Z := map Z.of_nat (seq 0 (Z.to_nat n)).

(** Appending the results of a fallible call, in order, stopping at the
    first failure. *)
Fixpoint append_all (f : Z -> option (Z * Z)) (indices : list Z)
    (points : list (Z * Z)) : option (list (Z * Z)) :=
  match indices with
  | [] => Some points
  | i :: rest =>
      match f i with
      | None => None
      | Some p => append_all f rest (points ++ [p])
      end
  end.

(** The object built by [HilbertCurve.__init__]. *)
Record HilbertCurve := { N : Z; points : list (Z * Z) }.

(** [HilbertCurve.__init__(order)]: [self.N = 2**order], [self.points]
    starts as [[(0, 0)]] and gets one point per index of
    [range(self.N * self.N)].  ([order] is a non-negative integer here; for a
    negative one Python's [2**order] is a float.) *)
Definition __init__ (order : Z) : option HilbertCurve :=
  let N := 2 ^ order in
  match append_all (_hilbert_curve_x2xy N) (range (N * N)) [(0, 0)] with
  | None => None
  | Some points => Some {| N := N; points := points |}
  end.

(** The loop with its counter made explicit: [k] further digits are decoded,
    starting with half side [h]. *)
Fixpoint decode (k : nat) (h index x y : Z) : Z * Z :=
  match k with
  | O => (x, y)
  | S k' =>
      let '(x', y') := quadrant h (_bit_mask index) x y in
      decode k' (2 * h) (Z.shiftr index 2) x' y'
  end.

End Hilbert.

(* ================================================================== *)
(** * Part II: the chaos game                                          *)
(* ================================================================== *)

Module Chaos.

(** ** Outcomes, the random source and the monad of the methods

    A method of [ChaosGame] either returns, or raises, or (in the model only)
    asks the random source for more numbers than the finite [tape] holds. *)

Inductive exn : Set :=
  ValueError | IndexError | ZeroDivisionError | OverflowError.

Inductive outcome (A : Type) : Type :=
| Done (a : A)
| Raise (e : exn)
| Starved.

Arguments Done {A} a.
Arguments Raise {A} e.
Arguments Starved {A}.

(** The world a method runs in.  [tape] is the random source: the raw
    integers that the calls of [random.randint] will consume, in order.
    [trace] is a ghost log, not a field of the Python object: the vertex
    indices used so far in the subscripts [self.vertices[random_index]]. *)
Record world : Type := { tape : list Z; trace : list Z }.

Definition M (A : Type) : Type := world -> outcome (A * world).

Definition ret {A : Type} (a : A) : M A := fun w => Done (a, w).

Definition bind {A B : Type} (c : M A) (k : A -> M B) : M B :=
  fun w =>
    match c w with
    | Done (a, w') => k a w'
    | Raise e => Raise e
    | Starved => Starved
    end.

Definition raise {A : Type} (e : exn) : M A := fun _ => Raise e.

Notation "x <- c ;; k" := (bind c (fun x => k))
  (at level 61, c at next level, right associativity).

(** A raw integer of the source brought into the closed range [[a, b]]. *)
Definition into_range (a b r : Z) : Z := a + r mod (b - a + 1).

(** [random.randint(a, b)]: a [ValueError] for an empty range, else the next
    number of the source, in [[a, b]]. *)
Definition randint (a b : Z) : M Z :=
  fun w =>
    if b <? a then Raise ValueError
    else match tape w with
         | [] => Starved
         | r :: t => Done (into_range a b r, {| tape := t; trace := trace w |})
         end.

(** The world [w] with the numbers [more] added at the end of its random
    source: what the source would have gone on to supply. *)
Definition supplied (w : world) (more : list Z) : world :=
  {| tape := tape w ++ more; trace := trace w |}.

(** Ghost: the index about to be used as the chosen vertex is logged. *)
Definition observe (i : Z) : M unit :=
  fun w => Done (tt, {| tape := tape w; trace := trace w ++ [i] |}).

(** A list subscript [l[i]]: negative indices count from the end, and an
    index outside [[-len, len)] raises [IndexError]. *)
Definition subscript {A : Type} (l : list A) (i : Z) : option A :=
  let len := Z.of_nat (List.length l) in
  if (0 <=? i) && (i <? len) then nth_error l (Z.to_nat i)
  else if (- len <=? i) && (i <? 0) then nth_error l (Z.to_nat (len + i))
  else None.

Definition getitem {A : Type} (l : list A) (i : Z) : M A :=
  match subscript l i with
  | Some a => ret a
  | None => raise IndexError
  end.

(** The rejection loops
    [while <test on random_index>: random_index = self.random.randint(0, self.shape - 1)].
    Every turn of the loop takes one number from the source, so the loop is
    a recursion on the tape; it has no other bound. *)
Fixpoint resample (shape : Z) (rejected : Z -> bool) (random_index : Z)
    (t : list Z) {struct t} : outcome (Z * list Z) :=
  if rejected random_index then
    if shape - 1 <? 0 then Raise ValueError
    else match t with
         | [] => Starved
         | r :: t' => resample shape rejected (into_range 0 (shape - 1) r) t'
         end
  else Done (random_index, t).

Definition while_rejected (shape : Z) (rejected : Z -> bool)
    (random_index : Z) : M Z :=
  fun w =>
    match resample shape rejected random_index (tape w) with
    | Done (i, t) => Done (i, {| tape := t; trace := trace w |})
    | Raise e => Raise e
    | Starved => Starved
    end.

(** ** The engine, for any type [F] of numbers

    The methods below only add and multiply coordinates, so they are written
    over an arbitrary number type [F] with its [add] and [mul]; Python's
    floats are one reading of them, the real numbers another (Part II, end). *)

Section Engine.

Context {F : Type} (add mul : F -> F -> F).

Definition point : Type := F * F.

(** The fields of a [ChaosGame] object ([self.random] and [self.math] are the
    modules; the random one is the [tape]). *)
Record ChaosGame : Type := {
  rule : string;
  ratio : F;
  vertices : list point;
  shape : Z;
  start : point;
  points : list point
}.

(** [self.points.append(new_point)]. *)
Definition append (self : ChaosGame) (new_point : point) : ChaosGame :=
  {| rule := rule self; ratio := ratio self; vertices := vertices self;
     shape := shape self; start := start self;
     points := points self ++ [new_point] |}.

(** [ChaosGame._get_mid_point]. *)
Definition _get_mid_point (self : ChaosGame) (point_a point_b : point) : point :=
  let x_mid := mul (add (fst point_a) (fst point_b)) (ratio self) in
  let y_mid := mul (add (snd point_a) (snd point_b)) (ratio self) in
  (x_mid, y_mid).

(** [bound_point = self.vertices[random_index]], with the ghost log. *)
Definition bound_vertex (self : ChaosGame) (random_index : Z) : M point :=
  _ <- observe random_index ;;
  getitem (vertices self) random_index.

(** The [for] loop of [_r0_play], [n] iterations left. *)
Fixpoint r0_for (self : ChaosGame) (n : nat) (new_point : point) : M ChaosGame :=
  match n with
  | O => ret self
  | S n' =>
      random_index <- randint 0 (shape self - 1) ;;
      bound_point <- bound_vertex self random_index ;;
      let new_point := _get_mid_point self new_point bound_point in
      r0_for (append self new_point) n' new_point
  end.

(** [ChaosGame._r0_play]. *)
Definition _r0_play (self : ChaosGame) (iterations : Z) : M ChaosGame :=
  let new_point := start self in
  r0_for self (Z.to_nat iterations) new_point.

(** The [for] loop of [_r1_play]. *)
Fixpoint r1_for (self : ChaosGame) (n : nat) (new_point : point)
    (prev_index : Z) : M ChaosGame :=
  match n with
  | O => ret self
  | S n' =>
      random_index <- randint 0 (shape self - 1) ;;
      random_index <- while_rejected (shape self)
                        (fun random_index => random_index =? prev_index)
                        random_index ;;
      bound_point <- bound_vertex self random_index ;;
      let new_point := _get_mid_point self new_point bound_point in
      let prev_index := random_index in
      r1_for (append self new_point) n' new_point prev_index
  end.

(** [ChaosGame._r1_play].  Its second line draws a first [random_index],
    which the loop overwrites, and sets [prev_index] to [-2]. *)
Definition _r1_play (self : ChaosGame) (iterations : Z) : M ChaosGame :=
  let new_point := start self in
  random_index <- randint 0 (shape self - 1) ;;
  let prev_index := -2 in
  r1_for self (Z.to_nat iterations) new_point prev_index.

(** The [for] loop of [_r2_play]. *)
Fixpoint r2_for (self : ChaosGame) (clockwise : bool) (n : nat)
    (new_point : point) (prev_index : Z) : M ChaosGame :=
  match n with
  | O => ret self
  | S n' =>
      random_index <- randint 0 (shape self - 1) ;;
      random_index <-
        (if clockwise then
           while_rejected (shape self)
             (fun random_index =>
                random_index =? (prev_index + 1) mod shape self)
             random_index
         else
           while_rejected (shape self)
             (fun random_index =>
                random_index =? (prev_index - 1) mod shape self)
             random_index) ;;
      bound_point <- bound_vertex self random_index ;;
      let new_point := _get_mid_point self new_point bound_point in
      let prev_index := random_index in
      r2_for (append self new_point) clockwise n' new_point prev_index
  end.

(** [ChaosGame._r2_play(iterations, clockwise)]. *)
Definition _r2_play (self : ChaosGame) (iterations : Z) (clockwise : bool)
    : M ChaosGame :=
  let new_point := start self in
  random_index <- randint 0 (shape self - 1) ;;
  let prev_index := -2 in
  r2_for self clockwise (Z.to_nat iterations) new_point prev_index.

(** The [for] loop of [_r4_play]; the two-element list [prev] is the pair
    [(prev[-2], prev[-1])]. *)
Fixpoint r4_for (self : ChaosGame) (n : nat) (new_point : point)
    (prev : Z * Z) : M ChaosGame :=
  match n with
  | O => ret self
  | S n' =>
      random_index <- randint 0 (shape self - 1) ;;
      random_index <-
        (if snd prev =? fst prev then
           while_rejected (shape self)
             (fun random_index =>
                (random_index =? (snd prev - 1) mod shape self)
                || (random_index =? (snd prev + 1) mod shape self))
             random_index
         else ret random_index) ;;
      bound_point <- bound_vertex self random_index ;;
      let new_point := _get_mid_point self new_point bound_point in
      let prev := (snd prev, random_index) in
      r4_for (append self new_point) n' new_point prev
  end.

(** [ChaosGame._r4_play]. *)
Definition _r4_play (self : ChaosGame) (iterations : Z) : M ChaosGame :=
  let new_point := start self in
  let prev := (-2, -1) in
  r4_for self (Z.to_nat iterations) new_point prev.

(** [ChaosGame.play]: the [if]/[elif] chain on [self.rule] has no [else], so
    for any other rule the method returns without doing anything. *)
Definition play (self : ChaosGame) (iterations : Z) : M ChaosGame :=
  if (rule self =? "r0")%string then _r0_play self iterations
  else if (rule self =? "r1")%string then _r1_play self iterations
  else if (rule self =? "r2")%string then _r2_play self iterations false
  else if (rule self =? "r3")%string then _r2_play self iterations true
  else if (rule self =? "r4")%string then _r4_play self iterations
  else ret self.

(** ** Vocabulary of the properties *)

(** The rule identifiers [play] knows. *)
Definition known_rules : list string := ["r0"; "r1"; "r2"; "r3"; "r4"]%string.

(** The test that makes each rule resample: whether the candidate
    [random_index] is refused, given the two most recent entries
    [(older, previous)] of the rule's history.  These are the loop tests of
    the four methods ([r3] is [_r2_play] with [clockwise=True]). *)
Definition refused (r : string) (shape : Z) (history : Z * Z)
    (random_index : Z) : bool :=
  let previous := snd history in
  if (r =? "r1")%string then random_index =? previous
  else if (r =? "r2")%string then random_index =? (previous - 1) mod shape
  else if (r =? "r3")%string then random_index =? (previous + 1) mod shape
  else if (r =? "r4")%string then
    (previous =? fst history)
    && ((random_index =? (previous - 1) mod shape)
        || (random_index =? (previous + 1) mod shape))
  else false.

(** The history each rule starts a call of [play] with: [prev_index = -2]
    for [r1], [r2] and [r3], [prev = [-2, -1]] for [r4]. *)
Definition seeded (r : string) : Z * Z :=
  if (r =? "r4")%string then (-2, -1) else (-2, -2).

(** The history after [random_index] has been chosen. *)
Definition remember (history : Z * Z) (random_index : Z) : Z * Z :=
  (snd history, random_index).

(** The chosen indices [indices] were each accepted by the rule, from the
    history [history] on. *)
Fixpoint accepted (r : string) (shape : Z) (history : Z * Z)
    (indices : list Z) : Prop :=
  match indices with
  | [] => True
  | i :: rest =>
      refused r shape history i = false /\
      accepted r shape (remember history i) rest
  end.

(** The points the specification describes: from [current], each next point
    is the component-wise sum of the current point and the chosen vertex,
    multiplied by [ratio].  (Written from the specification's formula, to be
    compared with what the loops append.) *)
Fixpoint scaled_sums (ratio : F) (current : point) (vs : list point)
    : list point :=
  match vs with
  | [] => []
  | v :: vs' =>
      let next := (mul (add (fst current) (fst v)) ratio,
                   mul (add (snd current) (snd v)) ratio) in
      next :: scaled_sums ratio next vs'
  end.

(** The four loops in one: the loop of rule [r], written with [refused] and
    [remember].  Lemmas [r0_for_rule] .. [r4_for_rule] show that each loop of
    the source is this one. *)
Fixpoint rule_for (r : string) (self : ChaosGame) (n : nat)
    (new_point : point) (history : Z * Z) : M ChaosGame :=
  match n with
  | O => ret self
  | S n' =>
      random_index <- randint 0 (shape self - 1) ;;
      random_index <- while_rejected (shape self)
                        (refused r (shape self) history) random_index ;;
      bound_point <- bound_vertex self random_index ;;
      let new_point := _get_mid_point self new_point bound_point in
      rule_for r (append self new_point) n' new_point
        (remember history random_index)
  end.

(** [self'] has the configuration of [self]: every field but [points]. *)
Definition same_configuration (self self' : ChaosGame) : Prop :=
  rule self' = rule self /\ ratio self' = ratio self /\
  vertices self' = vertices self /\ shape self' = shape self /\
  start self' = start self.

(** [vs] are the vertices that the indices [indices] select. *)
Definition chosen_vertices (self : ChaosGame) (indices : list Z)
    (vs : list point) : Prop :=
  Forall2 (fun i v => subscript (vertices self) i = Some v) indices vs.

(** A configured engine: at least 3 vertices, as many as [shape] says, and
    one of the five rules. *)
Definition configured (self : ChaosGame) : Prop :=
  3 <= shape self /\
  Z.of_nat (List.length (vertices self)) = shape self /\
  In (rule self) known_rules.

End Engine.

Arguments ChaosGame F : clear implicits.

(** ** The engine over the rational numbers

    An engine that computes: exact rational coordinates, and the triangle
    whose vertices are the ones [_generate_polygon(3)] stores (lemma
    [polygon_3] below). *)

Definition play_Q : ChaosGame Q -> Z -> M (ChaosGame Q) := play Qplus Qmult.

Definition triangle (rule : string) : ChaosGame Q :=
  {| rule := rule; ratio := (1 # 2)%Q;
     vertices := [(0, 1); (- (87 # 100), - (1 # 2)); (87 # 100, - (1 # 2))]%Q;
     shape := 3; start := ((1 # 4)%Q, (1 # 4)%Q); points := [] |}.

(** ** The constructor, over the real numbers

    [_generate_polygon] and [_random_start_point] need [math.pi], [math.cos],
    [math.sin], division and [round].  They are embedded over the real
    numbers: [PI], [cos] and [sin] of the Standard Library, exact arithmetic,
    and [round(x, 2)] as rounding of the exact value.  The code computes in
    binary64: each stored coordinate is the double nearest to the decimal
    written here, and the rounding errors of the floating-point operations
    are not part of this model; what is proved below about the polygon is
    stated with the margin that leaves. *)

Section RealEngine.

Local Open Scope R_scope.

(** The integer nearest to [x], ties going to the even one, as Python's
    [round] does. *)
Definition round_half_even (x : R) : Z :=
  let f := Int_part x in
  let d := x - IZR f in
  if Rlt_dec d (1 / 2) then f
  else if Rlt_dec (1 / 2) d then (f + 1)%Z
  else if Z.even f then f else (f + 1)%Z.

(** [round(x, ndigits)] for [ndigits >= 0]. *)
Definition round (x : R) (ndigits : Z) : R :=
  IZR (round_half_even (x * IZR (10 ^ ndigits))) / IZR (10 ^ ndigits).

(** [range(a, b)]. *)
Definition range2 (a b : Z) : list Z :=
  map (fun k => (a + Z.of_nat k)%Z) (seq 0 (Z.to_nat (b - a))).

(** Whether the integer [z] is too large for a float: converting an integer
    to a float rounds it to the nearest double, and raises [OverflowError]
    when that is 2^1024 or more in absolute value, which is from
    2^1024 - 2^970 on. *)
Definition float_overflows (z : Z) : bool :=
  (2 ^ 1024 - 2 ^ 970 <=? Z.abs z)%Z.

(** [ChaosGame._generate_polygon].  The division [2 * pi / no_of_vertices]
    converts the integer to a float first, which raises [OverflowError] for
    a count too large for a float; then it raises [ZeroDivisionError] for 0
    vertices. *)
Definition _generate_polygon (no_of_vertices : Z) : outcome (list (R * R)) :=
  if float_overflows no_of_vertices then Raise OverflowError
  else if (no_of_vertices =? 0)%Z then Raise ZeroDivisionError
  else
    let radians := 2 * PI / IZR no_of_vertices in
    let x0 := 0 in
    let y0 := 1 in
    let vertices := [(x0, y0)] in
    Done (vertices ++
          map (fun vertex =>
                 let x := x0 * cos (IZR vertex * radians)
                          - y0 * sin (IZR vertex * radians) in
                 let y := y0 * cos (IZR vertex * radians)
                          - x0 * sin (IZR vertex * radians) in
                 (round x 2, round y 2))
              (range2 1 no_of_vertices)).

(** [ChaosGame._random_start_point], where [u] is what [random.random()]
    returns, a number of [[0, 1)]. *)
Definition _random_start_point (u : R) : R * R :=
  let x := u * (0.5 - -0.5) + -0.5 in
  let y := x in
  (x, y).

(** [ChaosGame.__init__(shape, rule, ratio)], with the value [u] of the one
    call of [random.random()]. *)
Definition __init__ (shape : Z) (rule : string) (ratio : R) (u : R)
    : outcome (ChaosGame R) :=
  match _generate_polygon shape with
  | Done vertices =>
      Done {| rule := rule; ratio := ratio; vertices := vertices;
              shape := shape; start := _random_start_point u; points := [] |}
  | Raise e => Raise e
  | Starved => Starved
  end.

(** [play] with the addition and multiplication of the real numbers: the
    reading of the floating-point operations for the runs whose numbers
    binary64 holds exactly, where the two agree. *)
Definition play_R : ChaosGame R -> Z -> M (ChaosGame R) := play Rplus Rmult.

(** The sum of the weights [ws], and the combination of the points [vs]
    with these weights. *)
Fixpoint total (ws : list R) : R :=
  match ws with
  | [] => 0
  | w :: ws' => w + total ws'
  end.

Fixpoint combination (ws : list R) (vs : list (R * R)) : R * R :=
  match ws, vs with
  | w :: ws', v :: vs' =>
      (w * fst v + fst (combination ws' vs'),
       w * snd v + snd (combination ws' vs'))
  | _, _ => (0, 0)
  end.

(** The convex hull of [vs]: the combinations with weights that are not
    negative and add up to 1. *)
Definition in_hull (vs : list (R * R)) (p : R * R) : Prop :=
  exists ws, List.length ws = List.length vs /\
             Forall (fun w => 0 <= w) ws /\
             total ws = 1 /\ combination ws vs = p.

(** Strictly inside the hull: every weight is positive. *)
Definition strictly_inside (vs : list (R * R)) (p : R * R) : Prop :=
  exists ws, List.length ws = List.length vs /\
             Forall (fun w => 0 < w) ws /\
             total ws = 1 /\ combination ws vs = p.


End RealEngine.

End Chaos.

(* ================================================================== *)
(** * Part II-b: paths on the grid                                     *)
(* ================================================================== *)

Module Grid.

(** Two cells of the integer grid are neighbours: they differ by one step
    up, down, left or right. *)
Definition adjacent (p q : Z * Z) : Prop :=
  Z.abs (fst p - fst q) + Z.abs (snd p - snd q) = 1.

End Grid.

(* ================================================================== *)
(** * Part II-c: the Peano curve generator                             *)
(* ================================================================== *)

Module Peano.

(** [PeanoCurve._up], [_down], [_left] and [_right]. *)
Definition _up (x y : Z) : Z * Z := (x, y + 1).
Definition _down (x y : Z) : Z * Z := (x, y - 1).
Definition _left (x y : Z) : Z * Z := (x - 1, y).
Definition _right (x y : Z) : Z * Z := (x + 1, y).

(** What a call of [print] writes: an integer or a string. *)
Inductive printed : Set :=
| Int (z : Z)
| Str (s : string).

(** The object, its field [points], and the standard output so far. *)
Record PeanoCurve : Set := {
  N : Z;
  points : list (Z * Z);
  stdout : list printed
}.

Definition print (self : PeanoCurve) (p : printed) : PeanoCurve :=
  {| N := N self; points := points self; stdout := stdout self ++ [p] |}.

Definition append (self : PeanoCurve) (coords : Z * Z) : PeanoCurve :=
  {| N := N self; points := points self ++ [coords]; stdout := stdout self |}.

(** The local variables of [_generate_peano_curve] that live across the
    iterations of its loop. *)
Record locals : Set := { coords : Z * Z; i0 : Z; i1 : Z }.

(** The body of the loop of [_generate_peano_curve], after the test
    [index == 30]: from [index %= 9] to [self.points.append(coords)]. *)
Definition peano_body (index : Z) (self : PeanoCurve) (l : locals)
    : PeanoCurve * locals :=
  let index := index mod 9 in
  let self := print self (Int index) in
  let x := fst (coords l) in
  let y := snd (coords l) in
  let '(self, l) :=
    if (index =? 0) || (index =? 1) || (index =? 6) || (index =? 7) then
      if i1 l mod 2 =? 0 then
        (print self (Str "up"),
         {| coords := _up x y; i0 := i0 l; i1 := i1 l |})
      else
        (print self (Str "down"),
         {| coords := _down x y; i0 := i0 l; i1 := i1 l |})
    else if (index =? 2) || (index =? 5) then
      if i0 l mod 2 =? 0 then
        (print self (Str "right"),
         {| coords := _right x y; i0 := i0 l; i1 := i1 l |})
      else
        (self, {| coords := _left x y; i0 := i0 l; i1 := i1 l |})
    else if (index =? 3) || (index =? 4) then
      (print self (Str "down"),
       {| coords := _down x y; i0 := i0 l; i1 := i1 l |})
    else if index =? 8 then
      let i0' := i0 l + 1 in
      if i0' mod 3 =? 0 then
        (self, {| coords := _right x y; i0 := i0'; i1 := i1 l + 1 |})
      else
        (self, {| coords := _up x y; i0 := i0'; i1 := i1 l |})
    else (self, l) in
  (append self (coords l), l).

(** The loop [for index in range(self.N)], over the indices still to come;
    it is left by the [return] at index 30. *)
Fixpoint peano_for (indices : list Z) (self : PeanoCurve) (l : locals)
    : PeanoCurve :=
  match indices with
  | [] => self
  | index :: rest =>
      if index =? 30 then self
      else let '(self, l) := peano_body index self l in
           peano_for rest self l
  end.

(** [PeanoCurve._generate_peano_curve(index)]; [None] when the subscript
    [self.points[index]] raises [IndexError]. *)
Definition _generate_peano_curve (self : PeanoCurve) (index : Z)
    : option PeanoCurve :=
  match Chaos.subscript (points self) index with
  | None => None
  | Some coords =>
      let l := {| coords := coords; i0 := 0; i1 := 0 |} in
      Some (peano_for (Hilbert.range (N self)) self l)
  end.

(** [PeanoCurve.__init__(order)], for a non-negative [order]. *)
Definition __init__ (order : Z) : option PeanoCurve :=
  let self := {| N := 9 ^ order; points := [(0, 0)]; stdout := [] |} in
  _generate_peano_curve self 0.

(** A list of cells in which each cell is a neighbour of the one before. *)
Fixpoint is_path (ps : list (Z * Z)) : Prop :=
  match ps with
  | [] => True
  | p :: rest =>
      match rest with
      | [] => True
      | q :: _ => Grid.adjacent p q /\ is_path rest
      end
  end.

End Peano.

(* ================================================================== *)
(** * Part II-d: dithering along a curve                               *)
(* ================================================================== *)

Module Dither.

(** A subscript [i] on a dimension of length [len], as a position: negative
    subscripts count from the end, and a subscript outside [[-len, len)]
    raises [IndexError] ([None]). *)
Definition position (len i : Z) : option nat :=
  if (0 <=? i) && (i <? len) then Some (Z.to_nat i)
  else if (- len <=? i) && (i <? 0) then Some (Z.to_nat (len + i))
  else None.

(** The list [l] with its entry at position [n] replaced by [a]. *)
Fixpoint replace_nth {A : Type} (l : list A) (n : nat) (a : A) : list A :=
  match l, n with
  | [], _ => []
  | _ :: rest, O => a :: rest
  | b :: rest, S n' => b :: replace_nth rest n' a
  end.

Section Dithering.

(** The pixels are numbers of a type [F]: [zero] and [one] are the integers 0
    and 1 as pixels, [half] is the constant 0.5, [leb] is [<=]. *)
Context {F : Type} (zero one half : F) (add sub : F -> F -> F)
        (leb : F -> F -> bool).

(** A two-dimensional array, as the list of its rows. *)
Definition image : Type := list (list F).

(** [image[y, x]]. *)
Definition getitem2 (img : image) (y x : Z) : option F :=
  match position (Z.of_nat (List.length img)) y with
  | None => None
  | Some r =>
      match nth_error img r with
      | None => None
      | Some row =>
          match position (Z.of_nat (List.length row)) x with
          | None => None
          | Some c => nth_error row c
          end
      end
  end.

(** [image[y, x] = v]: the array after the assignment. *)
Definition setitem2 (img : image) (y x : Z) (v : F) : option image :=
  match position (Z.of_nat (List.length img)) y with
  | None => None
  | Some r =>
      match nth_error img r with
      | None => None
      | Some row =>
          match position (Z.of_nat (List.length row)) x with
          | None => None
          | Some c => Some (replace_nth img r (replace_nth row c v))
          end
      end
  end.

(** The loop [for x, y in hilbert_points[1:]] of [Dithering.dithering], over
    the points still to come; it returns the array and the error term [e]. *)
Fixpoint dither_for (ps : list (Z * Z)) (img : image) (e : F)
    : option (image * F) :=
  match ps with
  | [] => Some (img, e)
  | (x, y) :: rest =>
      match getitem2 img y x with
      | None => None
      | Some i =>
          let o := if leb (add i e) half then zero else one in
          let e := add e (sub i o) in
          match setitem2 img y x o with
          | None => None
          | Some img => dither_for rest img e
          end
      end
  end.

(** [Dithering.dithering(image)] for an object whose curve holds the points
    [hilbert_points]: the array after the call, with the last error term. *)
Definition dithering (hilbert_points : list (Z * Z)) (img : image)
    : option (image * F) :=
  match Chaos.subscript hilbert_points 0 with
  | None => None
  | Some (x_0, y_0) =>
      match getitem2 img y_0 x_0 with
      | None => None
      | Some i_0 =>
          let o_0 := if leb i_0 half then zero else one in
          let e := sub i_0 o_0 in
          match setitem2 img y_0 x_0 o_0 with
          | None => None
          | Some img => dither_for (tl hilbert_points) img e
          end
      end
  end.

(** [Dithering.__init__(image, Curve)]: the array after the call.  [Curve]
    is the class of the curve: here, the function from the order to the
    [points] of the object the class builds ([None] when the constructor
    raises).  [image.shape[0]] is the number of rows; [log2] of 0 raises
    [ValueError]; [int(log2(rows))] is the integer logarithm [Z.log2 rows]
    (what the floating-point [log2] gives for every size an array can
    have). *)
Definition __init__ (img : image) (Curve : Z -> option (list (Z * Z)))
    : option image :=
  let rows := Z.of_nat (List.length img) in
  if rows <=? 0 then None
  else
    let order := Z.log2 rows in
    match Curve order with
    | None => None
    | Some curve_points => option_map fst (dithering curve_points img)
    end.

(** An array with [rows] rows of [cols] pixels each. *)
Definition sized (img : image) (rows cols : Z) : Prop :=
  Z.of_nat (List.length img) = rows /\
  Forall (fun row => Z.of_nat (List.length row) = cols) img.

End Dithering.

(** The class [HilbertCurve] as an argument of [Dithering]. *)
Definition HilbertCurve (order : Z) : option (list (Z * Z)) :=
  option_map Hilbert.points (Hilbert.__init__ order).

End Dither.

(* ================================================================== *)
(** * Part III: properties of the Hilbert mapping                      *)
(* ================================================================== *)

Module HilbertFacts.
Import Hilbert.

(** ** Arithmetic of the digits *)

Lemma bit_mask_mod (x : Z) : _bit_mask x = x mod 4.
Proof. unfold _bit_mask. change 3 with (Z.ones 2). now rewrite Z.land_ones. Qed.

Lemma shiftr2_div (x : Z) : Z.shiftr x 2 = x / 4.
Proof. now rewrite Z.shiftr_div_pow2. Qed.

Lemma bit_mask_range (x : Z) : 0 <= _bit_mask x < 4.
Proof. rewrite bit_mask_mod. apply Z.mod_pos_bound. lia. Qed.

Lemma digits_split (x : Z) : x = 4 * Z.shiftr x 2 + _bit_mask x.
Proof. rewrite bit_mask_mod, shiftr2_div. apply Z.div_mod. lia. Qed.

Lemma shiftr2_range (x b : Z) : 0 <= x < 4 * b -> 0 <= Z.shiftr x 2 < b.
Proof.
  intros H. rewrite shiftr2_div. split.
  - apply Z.div_pos; lia.
  - apply Z.div_lt_upper_bound; lia.
Qed.

(** ** One step of the loop: the four quadrants of a [2h] by [2h] square *)

Ltac digit_cases d :=
  let H := fresh "Hd" in
  assert (H : d = 0 \/ d = 1 \/ d = 2 \/ d = 3) by lia;
  destruct H as [H | [H | [H | H]]]; subst d.

Ltac run_quadrant := unfold quadrant; cbn [Z.eqb Pos.eqb].

Lemma quadrant_range (h d x y x' y' : Z) :
  0 < h -> 0 <= d < 4 -> 0 <= x < h -> 0 <= y < h ->
  quadrant h d x y = (x', y') ->
  0 <= x' < 2 * h /\ 0 <= y' < 2 * h.
Proof.
  intros Hh Hd Hx Hy. digit_cases d; run_quadrant; intros E;
    apply pair_equal_spec in E; destruct E as [<- <-]; lia.
Qed.

Lemma quadrant_inj (h d1 x1 y1 d2 x2 y2 : Z) :
  0 < h ->
  0 <= d1 < 4 -> 0 <= x1 < h -> 0 <= y1 < h ->
  0 <= d2 < 4 -> 0 <= x2 < h -> 0 <= y2 < h ->
  quadrant h d1 x1 y1 = quadrant h d2 x2 y2 ->
  d1 = d2 /\ x1 = x2 /\ y1 = y2.
Proof.
  intros Hh Hd1 Hx1 Hy1 Hd2 Hx2 Hy2.
  digit_cases d1; digit_cases d2; run_quadrant; intros E;
    apply pair_equal_spec in E; lia.
Qed.

Lemma quadrant_onto (h u v : Z) :
  0 < h -> 0 <= u < 2 * h -> 0 <= v < 2 * h ->
  exists d x y,
    0 <= d < 4 /\ 0 <= x < h /\ 0 <= y < h /\ quadrant h d x y = (u, v).
Proof.
  intros Hh Hu Hv.
  destruct (Z_lt_ge_dec u h) as [Lu | Gu], (Z_lt_ge_dec v h) as [Lv | Gv].
  - exists 0, v, u. run_quadrant. repeat split; lia.
  - exists 1, u, (v - h). run_quadrant. repeat split; try lia. f_equal; lia.
  - exists 3, (h - 1 - v), (2 * h - 1 - u). run_quadrant.
    repeat split; try lia. f_equal; lia.
  - exists 2, (u - h), (v - h). run_quadrant. repeat split; try lia.
    f_equal; lia.
Qed.

(** ** The decoded digits, by induction on their number *)

Lemma pow4_S (k : nat) : 4 ^ Z.of_nat (S k) = 4 * 4 ^ Z.of_nat k.
Proof. rewrite Nat2Z.inj_succ, Z.pow_succ_r; lia. Qed.

Lemma pow2_S (k : nat) : 2 ^ Z.of_nat (S k) = 2 * 2 ^ Z.of_nat k.
Proof. rewrite Nat2Z.inj_succ, Z.pow_succ_r; lia. Qed.

Lemma decode_range (k : nat) : forall h index x y x' y',
  0 < h -> 0 <= x < h -> 0 <= y < h ->
  decode k h index x y = (x', y') ->
  0 <= x' < h * 2 ^ Z.of_nat k /\ 0 <= y' < h * 2 ^ Z.of_nat k.
Proof.
  induction k as [| k IH]; intros h index x y x' y' Hh Hx Hy E.
  - cbn in E. injection E as <- <-. cbn. lia.
  - cbn [decode] in E.
    destruct (quadrant h (_bit_mask index) x y) as [x1 y1] eqn:Q.
    apply quadrant_range in Q; auto using bit_mask_range.
    apply IH in E; try lia.
    rewrite pow2_S. replace (h * (2 * 2 ^ Z.of_nat k))
      with (2 * h * 2 ^ Z.of_nat k) by ring. exact E.
Qed.

Lemma decode_inj (k : nat) : forall h i1 x1 y1 i2 x2 y2,
  0 < h ->
  0 <= i1 < 4 ^ Z.of_nat k -> 0 <= x1 < h -> 0 <= y1 < h ->
  0 <= i2 < 4 ^ Z.of_nat k -> 0 <= x2 < h -> 0 <= y2 < h ->
  decode k h i1 x1 y1 = decode k h i2 x2 y2 ->
  i1 = i2 /\ x1 = x2 /\ y1 = y2.
Proof.
  induction k as [| k IH]; intros h i1 x1 y1 i2 x2 y2 Hh Hi1 Hx1 Hy1 Hi2 Hx2 Hy2 E.
  - cbn in *. injection E as -> ->. lia.
  - cbn [decode] in E. rewrite pow4_S in Hi1, Hi2.
    destruct (quadrant h (_bit_mask i1) x1 y1) as [u1 v1] eqn:Q1.
    destruct (quadrant h (_bit_mask i2) x2 y2) as [u2 v2] eqn:Q2.
    pose proof (quadrant_range _ _ _ _ _ _ Hh (bit_mask_range i1) Hx1 Hy1 Q1).
    pose proof (quadrant_range _ _ _ _ _ _ Hh (bit_mask_range i2) Hx2 Hy2 Q2).
    apply IH in E; auto using shiftr2_range; try lia.
    destruct E as (Es & -> & ->). rewrite <- Q2 in Q1.
    apply quadrant_inj in Q1; auto using bit_mask_range.
    destruct Q1 as (Ed & -> & ->).
    rewrite (digits_split i1), (digits_split i2), Es, Ed. auto.
Qed.

Lemma decode_onto (k : nat) : forall h u v,
  0 < h -> 0 <= u < h * 2 ^ Z.of_nat k -> 0 <= v < h * 2 ^ Z.of_nat k ->
  exists index x y,
    0 <= index < 4 ^ Z.of_nat k /\ 0 <= x < h /\ 0 <= y < h /\
    decode k h index x y = (u, v).
Proof.
  induction k as [| k IH]; intros h u v Hh Hu Hv.
  - exists 0, u, v. cbn in *. repeat split; lia.
  - rewrite pow2_S in Hu, Hv.
    destruct (IH (2 * h) u v) as (q & x1 & y1 & Hq & Hx1 & Hy1 & E);
      try lia.
    destruct (quadrant_onto h x1 y1) as (d & x & y & Hd & Hx & Hy & Q);
      try lia.
    exists (4 * q + d), x, y.
    assert (Em : _bit_mask (4 * q + d) = d).
    { rewrite bit_mask_mod. rewrite Z.add_comm, Z.mul_comm, Z.mod_add by lia.
      apply Z.mod_small; lia. }
    assert (Es : Z.shiftr (4 * q + d) 2 = q).
    { rewrite shiftr2_div. rewrite Z.add_comm, Z.mul_comm, Z.div_add by lia.
      rewrite Z.div_small; lia. }
    rewrite pow4_S. repeat split; try lia.
    cbn [decode]. rewrite Em, Es, Q. exact E.
Qed.

(** ** The [while] loop runs the decoder and stops *)

Lemma hilbert_while_decode (k : nat) : forall fuel h index x y,
  0 < h -> (k < fuel)%nat ->
  hilbert_while fuel (h * 2 ^ Z.of_nat k) (2 * h) index x y
  = Some (decode k h index x y).
Proof.
  induction k as [| k IH]; intros fuel h index x y Hh Hf;
    destruct fuel as [| fuel]; try lia.
  - cbn [hilbert_while decode]. change (2 ^ Z.of_nat 0) with 1.
    destruct (Z.leb_spec (2 * h) (h * 1)); [lia | reflexivity].
  - cbn [hilbert_while decode]. rewrite pow2_S.
    assert (0 < 2 ^ Z.of_nat k) by (apply Z.pow_pos_nonneg; lia).
    destruct (Z.leb_spec (2 * h) (h * (2 * 2 ^ Z.of_nat k))); [| nia].
    replace (2 * h / 2) with h
      by (rewrite Z.mul_comm, Z.div_mul; lia).
    destruct (quadrant h (_bit_mask index) x y) as [x1 y1].
    replace (h * (2 * 2 ^ Z.of_nat k)) with (2 * h * 2 ^ Z.of_nat k) by ring.
    replace (2 * h * 2) with (2 * (2 * h)) by ring.
    apply IH; lia.
Qed.

(** The loop returns whatever [self.N] is: [n] is positive and doubles, so
    [N + 1 - n] evaluations of the test are enough. *)
Lemma hilbert_while_fuel (N : Z) : forall fuel n index x y,
  0 < n -> (Z.to_nat (N + 1 - n) < fuel)%nat ->
  exists p, hilbert_while fuel N n index x y = Some p.
Proof.
  induction fuel as [| fuel IH]; intros n index x y Hn Hf; [lia |].
  cbn [hilbert_while]. destruct (Z.leb_spec n N).
  - destruct (quadrant (n / 2) (_bit_mask index) x y) as [x1 y1].
    apply IH; lia.
  - eauto.
Qed.

(** The subscript [positions[index & 3]] is the decoder's step for half side
    1 from the corner [(0, 0)], so the whole method is the decoder run over
    [order] digits. *)
Lemma positions_quadrant (d : Z) :
  0 <= d < 4 ->
  nth_error positions (Z.to_nat d) = Some (quadrant 1 d 0 0).
Proof. intros Hd. digit_cases d; reflexivity. Qed.

Lemma x2xy_decode (order index : Z) :
  1 <= order ->
  _hilbert_curve_x2xy (2 ^ order) index
  = Some (decode (Z.to_nat order) 1 index 0 0).
Proof.
  intros Ho. unfold _hilbert_curve_x2xy.
  rewrite (positions_quadrant _ (bit_mask_range index)).
  replace (Z.to_nat order) with (S (Z.to_nat (order - 1))) by lia.
  cbn [decode]. destruct (quadrant 1 (_bit_mask index) 0 0) as [x y].
  replace (2 ^ order) with (2 * 2 ^ Z.of_nat (Z.to_nat (order - 1))).
  - change 4 with (2 * 2). change (2 * 1) with 2.
    apply hilbert_while_decode; [lia |].
    assert (0 < 2 ^ Z.of_nat (Z.to_nat (order - 1)))
      by (apply Z.pow_pos_nonneg; lia).
    pose proof (Z.pow_gt_lin_r 2 (Z.of_nat (Z.to_nat (order - 1)))). lia.
  - rewrite <- Z.pow_succ_r by lia. f_equal. lia.
Qed.

(** The method returns for every [self.N] and every index. *)
Lemma x2xy_total (N index : Z) :
  exists p, _hilbert_curve_x2xy N index = Some p.
Proof.
  unfold _hilbert_curve_x2xy.
  rewrite (positions_quadrant _ (bit_mask_range index)).
  destruct (quadrant 1 (_bit_mask index) 0 0) as [x y].
  apply hilbert_while_fuel; lia.
Qed.

Lemma square_pow (order : Z) :
  0 <= order ->
  2 ^ order * 2 ^ order = 4 ^ Z.of_nat (Z.to_nat order).
Proof.
  intros Ho. rewrite Z2Nat.id by lia. change 4 with (2 * 2).
  now rewrite Z.pow_mul_l.
Qed.

(** ** The table built by the constructor *)

Lemma append_all_map (f : Z -> option (Z * Z)) (g : Z -> Z * Z) :
  forall indices acc,
    (forall i, In i indices -> f i = Some (g i)) ->
    append_all f indices acc = Some (acc ++ map g indices).
Proof.
  induction indices as [| i rest IH]; intros acc Hf; cbn.
  - now rewrite app_nil_r.
  - rewrite (Hf i) by now left.
    rewrite IH by (intros; apply Hf; now right).
    now rewrite <- app_assoc.
Qed.

(** The method on the indices 0 .. N*N - 1, for N = 2^order: in the grid,
    one to one, and onto. *)
Lemma x2xy_grid (order : Z) :
  1 <= order ->
  (forall i, 0 <= i < 2 ^ order * 2 ^ order ->
     exists x y, _hilbert_curve_x2xy (2 ^ order) i = Some (x, y) /\
                 0 <= x < 2 ^ order /\ 0 <= y < 2 ^ order) /\
  (forall i j, 0 <= i < 2 ^ order * 2 ^ order ->
               0 <= j < 2 ^ order * 2 ^ order ->
     _hilbert_curve_x2xy (2 ^ order) i = _hilbert_curve_x2xy (2 ^ order) j ->
     i = j) /\
  (forall x y, 0 <= x < 2 ^ order -> 0 <= y < 2 ^ order ->
     exists i, 0 <= i < 2 ^ order * 2 ^ order /\
               _hilbert_curve_x2xy (2 ^ order) i = Some (x, y)).
Proof.
  intros Ho. rewrite square_pow by lia.
  assert (EN : 2 ^ order = 1 * 2 ^ Z.of_nat (Z.to_nat order))
    by (rewrite Z2Nat.id; lia).
  repeat split.
  - intros i Hi. rewrite x2xy_decode by lia.
    destruct (decode (Z.to_nat order) 1 i 0 0) as [x y] eqn:E.
    exists x, y. split; [reflexivity |].
    apply decode_range in E; lia.
  - intros i j Hi Hj E. rewrite !x2xy_decode in E by lia.
    injection E as E. apply decode_inj in E; lia.
  - intros x y Hx Hy. rewrite EN in Hx, Hy.
    destruct (decode_onto (Z.to_nat order) 1 x y) as (i & x0 & y0 & Hi & Hx0 & Hy0 & E);
      try lia.
    exists i. split; [exact Hi |].
    rewrite x2xy_decode by lia.
    replace x0 with 0 in E by lia. replace y0 with 0 in E by lia.
    now rewrite E.
Qed.

(** C1. For every order n >= 1, with N = 2^n, the index-to-coordinate method
    restricted to the indices 0 .. N*N - 1 is a bijection onto the N by N
    grid: it returns a pair for each index, with 0 <= x < N and 0 <= y < N;
    two different indices never give the same pair; and every cell of the
    grid is the pair of some index. *)
Theorem hilbert_bijection (order : Z) :
  1 <= order ->
  let N := 2 ^ order in
  (forall i, 0 <= i < N * N ->
     exists x y, _hilbert_curve_x2xy N i = Some (x, y) /\
                 0 <= x < N /\ 0 <= y < N) /\
  (forall i j, 0 <= i < N * N -> 0 <= j < N * N ->
     _hilbert_curve_x2xy N i = _hilbert_curve_x2xy N j -> i = j) /\
  (forall x y, 0 <= x < N -> 0 <= y < N ->
     exists i, 0 <= i < N * N /\ _hilbert_curve_x2xy N i = Some (x, y)).
Proof. intros Ho N. subst N. now apply x2xy_grid. Qed.

Lemma hilbert_bijection_witness :
  let N := 2 ^ 3 in
  (forall i, 0 <= i < N * N ->
     exists x y, _hilbert_curve_x2xy N i = Some (x, y) /\
                 0 <= x < N /\ 0 <= y < N) /\
  (forall i j, 0 <= i < N * N -> 0 <= j < N * N ->
     _hilbert_curve_x2xy N i = _hilbert_curve_x2xy N j -> i = j) /\
  (forall x y, 0 <= x < N -> 0 <= y < N ->
     exists i, 0 <= i < N * N /\ _hilbert_curve_x2xy N i = Some (x, y)).
Proof. apply (hilbert_bijection 3). lia. Defined.

(** The curve of order 1 and a point of the curve of order 3. *)
Example x2xy_order_1 :
  map (_hilbert_curve_x2xy 2) [0; 1; 2; 3]
  = [Some (0, 0); Some (0, 1); Some (1, 1); Some (1, 0)].
Proof. reflexivity. Qed.

Example x2xy_order_3_index_5 : _hilbert_curve_x2xy 8 5 = Some (3, 0).
Proof. reflexivity. Qed.

(** ** The point table *)

Lemma decode_origin (k : nat) : forall h, decode k h 0 0 0 = (0, 0).
Proof. induction k as [| k IH]; intros h; [reflexivity | apply IH]. Qed.

Lemma range_In (n i : Z) : In i (range n) <-> 0 <= i < n.
Proof.
  unfold range. rewrite in_map_iff. split.
  - intros (m & <- & Hm). apply in_seq in Hm. lia.
  - intros Hi. exists (Z.to_nat i). rewrite in_seq. lia.
Qed.

Lemma range_NoDup (n : Z) : NoDup (range n).
Proof.
  unfold range. apply NoDup_map_NoDup_ForallPairs; [| apply seq_NoDup].
  intros a b _ _. apply Nat2Z.inj.
Qed.

Lemma range_head (n : Z) :
  0 < n -> exists rest, range n = 0 :: rest.
Proof.
  intros Hn. unfold range.
  replace (Z.to_nat n) with (S (Z.to_nat (n - 1))) by lia.
  cbn [seq map]. eauto.
Qed.

(** What the constructor builds, for every order n >= 1: the prepended
    [(0, 0)] followed by the decoded point of each index. *)
Lemma init_points (order : Z) :
  1 <= order ->
  __init__ order
  = Some {| N := 2 ^ order;
            points := (0, 0) :: map (fun i => decode (Z.to_nat order) 1 i 0 0)
                                    (range (2 ^ order * 2 ^ order)) |}.
Proof.
  intros Ho. unfold __init__.
  rewrite (append_all_map _ (fun i => decode (Z.to_nat order) 1 i 0 0)).
  - reflexivity.
  - intros i _. now apply x2xy_decode.
Qed.

(** X1 (table length). For every order n >= 1 the constructor returns and
    the table [points] has N*N + 1 entries, one more than the grid has
    cells. *)
Lemma init_length (order : Z) :
  1 <= order ->
  exists t, __init__ order = Some t /\
            Z.of_nat (List.length (points t)) = 2 ^ order * 2 ^ order + 1.
Proof.
  intros Ho. rewrite init_points by lia. eexists. split; [reflexivity |].
  cbn [points List.length]. unfold range. rewrite !length_map, length_seq.
  assert (0 < 2 ^ order) by (apply Z.pow_pos_nonneg; lia). nia.
Qed.

Lemma init_length_witness :
  exists t, __init__ 2 = Some t /\
            Z.of_nat (List.length (points t)) = 2 ^ 2 * 2 ^ 2 + 1.
Proof. apply (init_length 2). lia. Defined.

(** X2 (table without its first entry). For every order n >= 1, the entries
    1 .. N*N of the table, the computed ones, are pairwise distinct and are
    exactly the cells of the grid. *)
Lemma init_tail_enumerates (order : Z) :
  1 <= order ->
  exists t, __init__ order = Some t /\
            NoDup (tl (points t)) /\
            forall x y, In (x, y) (tl (points t)) <->
                        0 <= x < 2 ^ order /\ 0 <= y < 2 ^ order.
Proof.
  intros Ho. rewrite init_points by lia. eexists. split; [reflexivity |].
  cbn [points tl].
  destruct (x2xy_grid order Ho) as (Hr & Hi & Ho').
  split.
  - apply NoDup_map_NoDup_ForallPairs; [| apply range_NoDup].
    intros i j Ii Ij E. apply range_In in Ii, Ij.
    apply Hi; auto. rewrite !x2xy_decode by lia. now rewrite E.
  - intros x y. rewrite in_map_iff. split.
    + intros (i & E & Ii). apply range_In in Ii.
      destruct (Hr i Ii) as (x' & y' & E' & Hx & Hy).
      rewrite x2xy_decode, E in E' by lia.
      assert (E2 : (x, y) = (x', y')) by congruence.
      apply pair_equal_spec in E2. destruct E2 as [-> ->]. auto.
    + intros [Hx Hy]. destruct (Ho' x y Hx Hy) as (i & Ii & E).
      exists i. rewrite x2xy_decode in E by lia.
      split; [congruence | now apply range_In].
Qed.

Lemma init_tail_enumerates_witness :
  exists t, __init__ 2 = Some t /\
            NoDup (tl (points t)) /\
            forall x y, In (x, y) (tl (points t)) <->
                        0 <= x < 2 ^ 2 /\ 0 <= y < 2 ^ 2.
Proof. apply (init_tail_enumerates 2). lia. Defined.

(** X3 (repeated origin). For every order n >= 1 the first two entries of
    the table are both the origin: the prepended point, and the point
    computed for index 0. *)
Lemma init_repeats_origin (order : Z) :
  1 <= order ->
  exists t rest, __init__ order = Some t /\
                 points t = (0, 0) :: (0, 0) :: rest.
Proof.
  intros Ho. rewrite init_points by lia.
  assert (0 < 2 ^ order) by (apply Z.pow_pos_nonneg; lia).
  destruct (range_head (2 ^ order * 2 ^ order)) as [rest E]; [nia |].
  eexists. eexists. split; [reflexivity |].
  cbn [points]. rewrite E. cbn [map]. now rewrite decode_origin.
Qed.

Lemma init_repeats_origin_witness :
  exists t rest, __init__ 2 = Some t /\
                 points t = (0, 0) :: (0, 0) :: rest.
Proof. apply (init_repeats_origin 2). lia. Defined.

(** C2 (the table of order 1). The constructor builds the five points
    (0,0), (0,0), (0,1), (1,1), (1,0): the origin is at positions 0 and 1, so
    the table does not list each cell once. *)
Theorem table_order1_repeats_origin :
  exists t,
    __init__ 1 = Some t /\
    points t = [(0, 0); (0, 0); (0, 1); (1, 1); (1, 0)] /\
    nth_error (points t) 0 = nth_error (points t) 1 /\
    ~ NoDup (points t).
Proof.
  eexists. split; [reflexivity |]. cbn [points]. repeat split.
  intros H. inversion H as [| p l Hin _]. apply Hin. now left.
Qed.

End HilbertFacts.

(* ================================================================== *)
(** * Part IV: properties of the chaos game                            *)
(* ================================================================== *)

Module ChaosFacts.
Import Chaos.

(** ** The random source and the rejection loop *)

Lemma world_eta (w : world) : {| tape := tape w; trace := trace w |} = w.
Proof. now destruct w. Qed.

Lemma into_range_bounds (a b r : Z) :
  a <= b -> a <= into_range a b r <= b.
Proof.
  intros H. unfold into_range.
  pose proof (Z.mod_pos_bound r (b - a + 1)). lia.
Qed.

Lemma into_range_same (b r : Z) : 0 <= r <= b -> into_range 0 b r = r.
Proof. intros H. unfold into_range. rewrite Z.mod_small; lia. Qed.

Lemma randint_inv (a b : Z) (w : world) (i : Z) (w' : world) :
  randint a b w = Done (i, w') ->
  a <= b /\ a <= i <= b /\ trace w' = trace w /\
  exists r, tape w = r :: tape w' /\ i = into_range a b r.
Proof.
  unfold randint. destruct (Z.ltb_spec b a); [discriminate |].
  destruct (tape w) as [| r t] eqn:E; [discriminate |].
  intros [= <- <-]. cbn. repeat split; try lia; eauto.
  all: apply into_range_bounds; lia.
Qed.

Lemma resample_accept (shape : Z) (f : Z -> bool) (i : Z) (t : list Z) :
  f i = false -> resample shape f i t = Done (i, t).
Proof. intros E. destruct t; cbn [resample]; now rewrite E. Qed.

(** What the loop returns was not rejected; it is the candidate it started
    with or a later draw, and the draws it used are a prefix of the tape. *)
Lemma resample_inv (shape : Z) (f : Z -> bool) :
  forall t i j t',
    resample shape f i t = Done (j, t') ->
    f j = false /\ (j = i \/ 0 <= j < shape) /\
    exists used, t = used ++ t'.
Proof.
  induction t as [| r t IH]; intros i j t'; cbn [resample];
    destruct (f i) eqn:Ei.
  - destruct (shape - 1 <? 0); discriminate.
  - intros [= <- <-]. repeat split; auto. now exists [].
  - destruct (Z.ltb_spec (shape - 1) 0); [discriminate |].
    intros Hr. apply IH in Hr. destruct Hr as (Ej & Hj & used & ->).
    repeat split; auto.
    + right. destruct Hj as [-> | Hj]; [| exact Hj].
      pose proof (into_range_bounds 0 (shape - 1) r). lia.
    + now exists (r :: used).
  - intros [= <- <-]. repeat split; auto. now exists [].
Qed.

Lemma while_rejected_inv (shape : Z) (f : Z -> bool) (i : Z) (w : world)
    (j : Z) (w' : world) :
  while_rejected shape f i w = Done (j, w') ->
  f j = false /\ (j = i \/ 0 <= j < shape) /\ trace w' = trace w /\
  exists used, tape w = used ++ tape w'.
Proof.
  unfold while_rejected.
  destruct (resample shape f i (tape w)) as [[k t] | |] eqn:E;
    try discriminate.
  intros [= <- <-]. apply resample_inv in E. cbn. tauto.
Qed.

Lemma while_rejected_accept (shape : Z) (f : Z -> bool) (i : Z) (w : world) :
  f i = false -> while_rejected shape f i w = Done (i, w).
Proof.
  intros E. unfold while_rejected. rewrite resample_accept by exact E.
  now rewrite world_eta.
Qed.

(** ** More numbers for the random source *)

Lemma supplied_nil (w : world) : supplied w [] = w.
Proof. unfold supplied. rewrite app_nil_r. apply world_eta. Qed.

(** More numbers at the end of the source change nothing for a loop that
    ended without them. *)
Lemma resample_supplied (shape : Z) (f : Z -> bool) (more : list Z) :
  forall t i j t',
    resample shape f i t = Done (j, t') ->
    resample shape f i (t ++ more) = Done (j, t' ++ more).
Proof.
  induction t as [| r t IH]; intros i j t'; cbn [resample app].
  - destruct (f i) eqn:Ei.
    + destruct (shape - 1 <? 0); discriminate.
    + intros [= <- <-]. now apply resample_accept.
  - destruct (f i) eqn:Ei.
    + destruct (shape - 1 <? 0); [discriminate |]. apply IH.
    + now intros [= <- <-].
Qed.

(** A loop that ran out of numbers ends as soon as it is given one that the
    test accepts. *)
Lemma resample_fed (shape : Z) (f : Z -> bool) (c : Z) (more : list Z) :
  0 <= c < shape -> f c = false ->
  forall t i, resample shape f i t = Starved ->
              resample shape f i (t ++ c :: more) = Done (c, more).
Proof.
  intros Hc Ec. induction t as [| r t IH]; intros i; cbn [resample app].
  - destruct (f i) eqn:Ei; [| discriminate].
    destruct (Z.ltb_spec (shape - 1) 0); [discriminate |]. intros _.
    rewrite into_range_same by lia. now apply resample_accept.
  - destruct (f i) eqn:Ei; [| discriminate].
    destruct (shape - 1 <? 0); [discriminate |]. apply IH.
Qed.

Lemma resample_no_raise (shape : Z) (f : Z -> bool) :
  0 <= shape - 1 -> forall t i e, resample shape f i t <> Raise e.
Proof.
  intros Hs. induction t as [| r t IH]; intros i e; cbn [resample];
    destruct (f i); try discriminate;
    destruct (Z.ltb_spec (shape - 1) 0); try lia; try discriminate.
  apply IH.
Qed.

(** The choice of one iteration: a draw, then the rejection loop.  Whatever
    the source still holds, some further numbers let it end; it then ends the
    same way when yet more numbers follow. *)
Lemma choice_completes (shape : Z) (f : Z -> bool) (w : world) :
  (exists c, 0 <= c < shape /\ f c = false) ->
  exists more j w',
    0 <= j < shape /\ f j = false /\ trace w' = trace w /\
    forall (B : Type) (k : Z -> M B) more2,
      (random_index <- randint 0 (shape - 1) ;;
       random_index <- while_rejected shape f random_index ;;
       k random_index) (supplied w (more ++ more2))
      = k j (supplied w' more2).
Proof.
  intros (c & Hc & Ec).
  assert (Hs : (shape - 1 <? 0) = false) by (apply Z.ltb_ge; lia).
  destruct w as [t tr]. destruct t as [| r t].
  - exists [c], c, {| tape := []; trace := tr |}.
    repeat split; try lia; auto.
    intros B k more2. unfold bind, randint, supplied. cbn [tape trace app].
    rewrite Hs, into_range_same by lia.
    rewrite while_rejected_accept by exact Ec. reflexivity.
  - pose proof (into_range_bounds 0 (shape - 1) r ltac:(lia)) as Hi.
    set (i := into_range 0 (shape - 1) r) in *.
    destruct (resample shape f i t) as [[j t'] | e |] eqn:E.
    + exists [], j, {| tape := t'; trace := tr |}.
      pose proof (resample_inv _ _ _ _ _ _ E) as (Ej & Hj & _).
      repeat split; auto; try (destruct Hj; lia).
      intros B k more2. unfold bind, randint, supplied. cbn [tape trace app].
      rewrite Hs. fold i. unfold while_rejected. cbn [tape trace].
      now rewrite (resample_supplied _ _ _ _ _ _ _ E).
    + exfalso. revert E. apply resample_no_raise. lia.
    + exists [c], c, {| tape := []; trace := tr |}.
      repeat split; try lia; auto.
      intros B k more2. unfold bind, randint, supplied. cbn [tape trace app].
      rewrite Hs. fold i. unfold while_rejected. cbn [tape trace].
      now rewrite (resample_fed _ _ c more2 Hc Ec _ _ E).
Qed.

(** ** Subscripts *)

Lemma subscript_in_range {A : Type} (l : list A) (i : Z) :
  0 <= i < Z.of_nat (List.length l) ->
  exists a, subscript l i = Some a /\ nth_error l (Z.to_nat i) = Some a.
Proof.
  intros H. unfold subscript.
  destruct (Z.leb_spec 0 i); [| lia].
  destruct (Z.ltb_spec i (Z.of_nat (List.length l))); [| lia]. cbn.
  destruct (nth_error l (Z.to_nat i)) as [a |] eqn:E; [eauto |].
  apply nth_error_None in E. lia.
Qed.

(** ** The four loops are the loop of their rule *)

Section Loops.

Context {F : Type} (add mul : F -> F -> F).

Lemma r0_for_rule (n : nat) : forall (self : ChaosGame F) p h w,
  r0_for add mul self n p w = rule_for add mul "r0" self n p h w.
Proof.
  induction n as [| n IH]; intros self p h w; [reflexivity |].
  cbn [r0_for rule_for]. unfold bind at 1 3.
  destruct (randint 0 (shape self - 1) w) as [[i w1] | |]; try reflexivity.
  unfold bind at 2. rewrite while_rejected_accept by reflexivity.
  unfold bind.
  destruct (bound_vertex self i w1) as [[v w2] | |]; try reflexivity.
  apply IH.
Qed.

Lemma r1_for_rule (n : nat) : forall (self : ChaosGame F) p older prev_index w,
  r1_for add mul self n p prev_index w
  = rule_for add mul "r1" self n p (older, prev_index) w.
Proof.
  induction n as [| n IH]; intros self p older prev_index w; [reflexivity |].
  cbn [r1_for rule_for]. unfold bind.
  destruct (randint 0 (shape self - 1) w) as [[i w1] | |]; try reflexivity.
  change (refused "r1" (shape self) (older, prev_index))
    with (fun random_index => random_index =? prev_index).
  destruct (while_rejected _ _ i w1) as [[j w2] | |]; try reflexivity.
  destruct (bound_vertex self j w2) as [[v w3] | |]; try reflexivity.
  apply IH.
Qed.

Lemma r2_for_rule (n : nat) : forall (self : ChaosGame F) p older prev_index w,
  r2_for add mul self false n p prev_index w
  = rule_for add mul "r2" self n p (older, prev_index) w.
Proof.
  induction n as [| n IH]; intros self p older prev_index w; [reflexivity |].
  cbn [r2_for rule_for]. unfold bind.
  destruct (randint 0 (shape self - 1) w) as [[i w1] | |]; try reflexivity.
  change (refused "r2" (shape self) (older, prev_index))
    with (fun random_index => random_index =? (prev_index - 1) mod shape self).
  destruct (while_rejected _ _ i w1) as [[j w2] | |]; try reflexivity.
  destruct (bound_vertex self j w2) as [[v w3] | |]; try reflexivity.
  apply IH.
Qed.

Lemma r3_for_rule (n : nat) : forall (self : ChaosGame F) p older prev_index w,
  r2_for add mul self true n p prev_index w
  = rule_for add mul "r3" self n p (older, prev_index) w.
Proof.
  induction n as [| n IH]; intros self p older prev_index w; [reflexivity |].
  cbn [r2_for rule_for]. unfold bind.
  destruct (randint 0 (shape self - 1) w) as [[i w1] | |]; try reflexivity.
  change (refused "r3" (shape self) (older, prev_index))
    with (fun random_index => random_index =? (prev_index + 1) mod shape self).
  destruct (while_rejected _ _ i w1) as [[j w2] | |]; try reflexivity.
  destruct (bound_vertex self j w2) as [[v w3] | |]; try reflexivity.
  apply IH.
Qed.

Lemma r4_for_rule (n : nat) : forall (self : ChaosGame F) p prev w,
  r4_for add mul self n p prev w = rule_for add mul "r4" self n p prev w.
Proof.
  induction n as [| n IH]; intros self p prev w; [reflexivity |].
  cbn [r4_for rule_for]. unfold bind.
  destruct (randint 0 (shape self - 1) w) as [[i w1] | |]; try reflexivity.
  change (refused "r4" (shape self) prev)
    with (fun random_index =>
            (snd prev =? fst prev)
            && ((random_index =? (snd prev - 1) mod shape self)
                || (random_index =? (snd prev + 1) mod shape self))).
  destruct (snd prev =? fst prev).
  - cbn [andb].
    destruct (while_rejected _ _ i w1) as [[j w2] | |]; try reflexivity.
    destruct (bound_vertex self j w2) as [[v w3] | |]; try reflexivity.
    apply IH.
  - cbn [andb]. rewrite while_rejected_accept by reflexivity.
    unfold ret.
    destruct (bound_vertex self i w1) as [[v w3] | |]; try reflexivity.
    apply IH.
Qed.

(** ** What a run of the loop leaves behind *)

Lemma bound_vertex_inv (self : ChaosGame F) (i : Z) (w : world) v w' :
  bound_vertex self i w = Done (v, w') ->
  subscript (vertices self) i = Some v /\
  tape w' = tape w /\ trace w' = trace w ++ [i].
Proof.
  unfold bound_vertex, bind, observe, getitem.
  destruct (subscript (vertices self) i) as [a |]; [| discriminate].
  unfold ret. intros [= <- <-]. auto.
Qed.

Lemma same_configuration_refl (self : ChaosGame F) : same_configuration self self.
Proof. repeat split. Qed.

Lemma rule_for_inv (r : string) (n : nat) :
  forall (self : ChaosGame F) p h w self' w',
    rule_for add mul r self n p h w = Done (self', w') ->
    exists indices vs,
      List.length indices = n /\
      trace w' = trace w ++ indices /\
      chosen_vertices self indices vs /\
      points self' = points self ++ scaled_sums add mul (ratio self) p vs /\
      accepted r (shape self) h indices /\
      Forall (fun i => 0 <= i < shape self) indices /\
      same_configuration self self' /\
      exists used, tape w = used ++ tape w'.
Proof.
  induction n as [| n IH]; intros self p h w self' w' H.
  - cbn in H. unfold ret in H. injection H as <- <-.
    exists [], []. cbn. rewrite !app_nil_r.
    repeat split; auto; try constructor. now exists [].
  - cbn [rule_for] in H. unfold bind at 1 in H.
    destruct (randint 0 (shape self - 1) w) as [[i w1] | |] eqn:R;
      try discriminate.
    unfold bind at 1 in H.
    destruct (while_rejected _ _ i w1) as [[j w2] | |] eqn:W;
      try discriminate.
    unfold bind at 1 in H.
    destruct (bound_vertex self j w2) as [[v w3] | |] eqn:B;
      try discriminate.
    apply randint_inv in R. destruct R as (Hs & Hi & Tr1 & r0 & Tp1 & _).
    apply while_rejected_inv in W.
    destruct W as (Hj & Hji & Tr2 & used2 & Tp2).
    apply bound_vertex_inv in B. destruct B as (Sv & Tp3 & Tr3).
    apply IH in H.
    destruct H as (indices & vs & Hlen & Htr & Hvs & Hpts & Hacc & Hrng
                   & Hcfg & used & Htp).
    exists (j :: indices), (v :: vs). cbn [append shape ratio vertices points] in *.
    repeat split.
    + cbn. now rewrite Hlen.
    + rewrite Htr, Tr3, Tr2, Tr1, <- app_assoc. reflexivity.
    + constructor; assumption.
    + rewrite Hpts, <- app_assoc. reflexivity.
    + exact Hj.
    + exact Hacc.
    + constructor; [| exact Hrng]. destruct Hji as [-> | Hji]; lia.
    + apply Hcfg.
    + apply Hcfg.
    + apply Hcfg.
    + apply Hcfg.
    + apply Hcfg.
    + exists (r0 :: used2 ++ used).
      rewrite Tp1, Tp2, <- Tp3, Htp. cbn [app]. now rewrite app_assoc.
Qed.

(** ** What a call of [play] leaves behind *)

(** For each of the five rules, a call [play(k)] that returns has chosen
    [k] vertex indices, each in range and accepted by the rule from the seeded
    history on, and has appended a point per index. *)
Lemma play_inv (self : ChaosGame F) (k : Z) (w : world) self' w' :
  In (rule self) known_rules ->
  play add mul self k w = Done (self', w') ->
  exists indices vs,
    List.length indices = Z.to_nat k /\
    trace w' = trace w ++ indices /\
    chosen_vertices self indices vs /\
    points self'
    = points self ++ scaled_sums add mul (ratio self) (start self) vs /\
    accepted (rule self) (shape self) (seeded (rule self)) indices /\
    Forall (fun i => 0 <= i < shape self) indices /\
    same_configuration self self' /\
    exists used, tape w = used ++ tape w'.
Proof.
  intros Hr H. unfold play in H.
  destruct Hr as [Hr | [Hr | [Hr | [Hr | [Hr | []]]]]]; rewrite <- Hr in *;
    cbn [String.eqb Ascii.eqb Bool.eqb] in H.
  - unfold _r0_play in H. rewrite (r0_for_rule _ _ _ (seeded "r0")) in H.
    now apply rule_for_inv in H.
  - unfold _r1_play, bind in H.
    destruct (randint 0 (shape self - 1) w) as [[i w1] | |] eqn:R;
      try discriminate.
    rewrite (r1_for_rule _ _ _ (-2)) in H. apply rule_for_inv in H.
    apply randint_inv in R. destruct R as (_ & _ & Tr & r & Tp & _).
    destruct H as (indices & vs & H1 & H2 & H3 & H4 & H5 & H6 & H7 & u & H8).
    exists indices, vs. rewrite <- Tr. repeat split; auto; try apply H7.
    exists (r :: u). rewrite Tp, H8. reflexivity.
  - unfold _r2_play, bind in H.
    destruct (randint 0 (shape self - 1) w) as [[i w1] | |] eqn:R;
      try discriminate.
    rewrite (r2_for_rule _ _ _ (-2)) in H. apply rule_for_inv in H.
    apply randint_inv in R. destruct R as (_ & _ & Tr & r & Tp & _).
    destruct H as (indices & vs & H1 & H2 & H3 & H4 & H5 & H6 & H7 & u & H8).
    exists indices, vs. rewrite <- Tr. repeat split; auto; try apply H7.
    exists (r :: u). rewrite Tp, H8. reflexivity.
  - unfold _r2_play, bind in H.
    destruct (randint 0 (shape self - 1) w) as [[i w1] | |] eqn:R;
      try discriminate.
    rewrite (r3_for_rule _ _ _ (-2)) in H. apply rule_for_inv in H.
    apply randint_inv in R. destruct R as (_ & _ & Tr & r & Tp & _).
    destruct H as (indices & vs & H1 & H2 & H3 & H4 & H5 & H6 & H7 & u & H8).
    exists indices, vs. rewrite <- Tr. repeat split; auto; try apply H7.
    exists (r :: u). rewrite Tp, H8. reflexivity.
  - unfold _r4_play in H. rewrite r4_for_rule in H.
    now apply rule_for_inv in H.
Qed.

(** ** A call of [play] can return *)

(** With at least 3 vertices, every rule accepts some index, whatever the
    history: a rule refuses at most two indices. *)
Lemma some_index_accepted (r : string) (shape : Z) (h : Z * Z) :
  3 <= shape ->
  exists c, 0 <= c < shape /\ refused r shape h c = false.
Proof.
  intros Hs.
  destruct (refused r shape h 0) eqn:E0; [| exists 0; split; [lia | exact E0]].
  destruct (refused r shape h 1) eqn:E1; [| exists 1; split; [lia | exact E1]].
  destruct (refused r shape h 2) eqn:E2; [| exists 2; split; [lia | exact E2]].
  exfalso. unfold refused in E0, E1, E2.
  set (m1 := (snd h - 1) mod shape) in *.
  set (m2 := (snd h + 1) mod shape) in *.
  destruct (r =? "r1")%string; [lia |].
  destruct (r =? "r2")%string; [lia |].
  destruct (r =? "r3")%string; [lia |].
  destruct (r =? "r4")%string; [| discriminate].
  apply andb_prop in E0, E1, E2.
  destruct E0 as [_ E0], E1 as [_ E1], E2 as [_ E2].
  apply orb_prop in E0, E1, E2. lia.
Qed.

Lemma bound_vertex_supplied (self : ChaosGame F) (i : Z) (w : world) :
  0 <= i < Z.of_nat (List.length (vertices self)) ->
  exists v, subscript (vertices self) i = Some v /\
    forall more,
      bound_vertex self i (supplied w more)
      = Done (v, supplied {| tape := tape w; trace := trace w ++ [i] |} more).
Proof.
  intros Hi. destruct (subscript_in_range (vertices self) i Hi) as (v & Sv & _).
  exists v. split; [exact Sv |]. intros more.
  unfold bound_vertex, bind, observe, getitem. now rewrite Sv.
Qed.

(** The loop of a rule, with at least 3 vertices: whatever the source still
    holds, some further numbers let the loop end. *)
Lemma rule_for_completes (r : string) (n : nat) :
  forall (self : ChaosGame F) p h w,
    3 <= shape self ->
    Z.of_nat (List.length (vertices self)) = shape self ->
    exists more self' w',
      forall more2,
        rule_for add mul r self n p h (supplied w (more ++ more2))
        = Done (self', supplied w' more2).
Proof.
  induction n as [| n IH]; intros self p h w Hs Hl.
  - exists [], self, w. intros more2. reflexivity.
  - destruct (choice_completes (shape self) (refused r (shape self) h) w
                (some_index_accepted r (shape self) h Hs))
      as (more1 & j & w1 & Hj & Ej & Tr & Hc).
    destruct (bound_vertex_supplied self j w1 ltac:(lia)) as (v & Sv & Hb).
    destruct (IH (append self (_get_mid_point add mul self p v))
                 (_get_mid_point add mul self p v) (remember h j)
                 {| tape := tape w1; trace := trace w1 ++ [j] |} Hs Hl)
      as (more2 & self' & w' & H).
    exists (more1 ++ more2), self', w'. intros more3.
    cbn [rule_for]. rewrite <- app_assoc, Hc.
    unfold bind at 1. rewrite Hb. apply H.
Qed.

(** A configured engine can always finish a call of [play]: whatever the
    random source still holds, some further numbers let the call return, and
    it returns the same when yet more numbers follow. *)
Lemma play_completes (self : ChaosGame F) (k : Z) (w : world) :
  configured self ->
  exists more self' w',
    forall more2,
      play add mul self k (supplied w (more ++ more2))
      = Done (self', supplied w' more2).
Proof.
  intros (Hs & Hl & Hr).
  assert (Hd : exists more0 w0, forall (B : Type) (c : Z -> M B) more2,
             (random_index <- randint 0 (shape self - 1) ;; c random_index)
               (supplied w (more0 ++ more2))
             = c (into_range 0 (shape self - 1) (hd 0 (tape w ++ more0)))
                 (supplied w0 more2)).
  { assert (Hb : (shape self - 1 <? 0) = false) by (apply Z.ltb_ge; lia).
    destruct w as [[| x t] tr].
    - exists [0], {| tape := []; trace := tr |}. intros B c more2.
      unfold bind, randint, supplied. cbn [tape trace app hd]. now rewrite Hb.
    - exists [], {| tape := t; trace := tr |}. intros B c more2.
      unfold bind, randint, supplied. cbn [tape trace app hd]. now rewrite Hb. }
  destruct Hd as (more0 & w0 & Hd).
  destruct (rule_for_completes (rule self) (Z.to_nat k) self (start self)
              (seeded (rule self)) w Hs Hl) as (more & self' & w' & H).
  destruct (rule_for_completes (rule self) (Z.to_nat k) self (start self)
              (seeded (rule self)) w0 Hs Hl) as (more1 & self1 & w1 & H1).
  unfold play.
  destruct Hr as [Hr | [Hr | [Hr | [Hr | [Hr | []]]]]]; rewrite <- Hr in *;
    cbn [String.eqb Ascii.eqb Bool.eqb].
  - exists more, self', w'. intros more2.
    unfold _r0_play. rewrite (r0_for_rule _ _ _ (seeded "r0")). apply H.
  - exists (more0 ++ more1), self1, w1. intros more2.
    unfold _r1_play. rewrite <- app_assoc, Hd.
    rewrite (r1_for_rule _ _ _ (-2)). apply H1.
  - exists (more0 ++ more1), self1, w1. intros more2.
    unfold _r2_play. rewrite <- app_assoc, Hd.
    rewrite (r2_for_rule _ _ _ (-2)). apply H1.
  - exists (more0 ++ more1), self1, w1. intros more2.
    unfold _r2_play. rewrite <- app_assoc, Hd.
    rewrite (r3_for_rule _ _ _ (-2)). apply H1.
  - exists more, self', w'. intros more2.
    unfold _r4_play. rewrite r4_for_rule. apply H.
Qed.

Lemma rule_for_no_raise (r : string) (n : nat) :
  forall (self : ChaosGame F) p h w e,
    1 <= shape self ->
    Z.of_nat (List.length (vertices self)) = shape self ->
    rule_for add mul r self n p h w <> Raise e.
Proof.
  induction n as [| n IH]; intros self p h w e Hs Hl; [discriminate |].
  cbn [rule_for]. unfold bind at 1.
  destruct (randint 0 (shape self - 1) w) as [[i w1] | e1 |] eqn:R.
  - apply randint_inv in R. destruct R as (_ & Hi & _).
    unfold bind at 1.
    destruct (while_rejected _ _ i w1) as [[j w2] | e2 |] eqn:W.
    + apply while_rejected_inv in W. destruct W as (_ & Hj & _).
      destruct (subscript_in_range (vertices self) j) as (v & Sv & _);
        [destruct Hj; lia |].
      unfold bind at 1. unfold bound_vertex, bind, observe, getitem.
      rewrite Sv. unfold ret. apply IH; assumption.
    + exfalso. unfold while_rejected in W.
      destruct (resample _ _ i (tape w1)) as [[? ?] | e3 |] eqn:E;
        try discriminate.
      revert E. apply resample_no_raise. lia.
    + discriminate.
  - exfalso. unfold randint in R.
    destruct (Z.ltb_spec (shape self - 1) 0); [lia |].
    destruct (tape w); discriminate.
  - discriminate.
Qed.

(** A configured engine never raises in [play]. *)
Lemma play_no_raise (self : ChaosGame F) (k : Z) (w : world) (e : exn) :
  configured self -> play add mul self k w <> Raise e.
Proof.
  intros (Hs & Hl & Hr).
  assert (Hd : forall c : Z -> M (ChaosGame F),
             (forall i w1, c i w1 <> Raise e) ->
             (random_index <- randint 0 (shape self - 1) ;; c random_index) w
             <> Raise e).
  { intros c Hc. unfold bind, randint.
    destruct (Z.ltb_spec (shape self - 1) 0); [lia |].
    destruct (tape w); [discriminate | apply Hc]. }
  unfold play.
  destruct Hr as [Hr | [Hr | [Hr | [Hr | [Hr | []]]]]]; rewrite <- Hr in *;
    cbn [String.eqb Ascii.eqb Bool.eqb].
  - unfold _r0_play. rewrite (r0_for_rule _ _ _ (seeded "r0")).
    apply rule_for_no_raise; lia.
  - unfold _r1_play. apply Hd. intros i w1.
    rewrite (r1_for_rule _ _ _ (-2)). apply rule_for_no_raise; lia.
  - unfold _r2_play. apply Hd. intros i w1.
    rewrite (r2_for_rule _ _ _ (-2)). apply rule_for_no_raise; lia.
  - unfold _r2_play. apply Hd. intros i w1.
    rewrite (r3_for_rule _ _ _ (-2)). apply rule_for_no_raise; lia.
  - unfold _r4_play. rewrite r4_for_rule. apply rule_for_no_raise; lia.
Qed.

Lemma configured_kept (self self' : ChaosGame F) :
  same_configuration self self' -> configured self -> configured self'.
Proof.
  intros (Er & _ & Ev & Es & _) (Hs & Hl & Hr). unfold configured.
  now rewrite Er, Ev, Es.
Qed.

(** Under rule r0 nothing is resampled: [play(k)] returns on every tape
    that holds at least [k] numbers. *)
Lemma r0_for_returns (n : nat) : forall (self : ChaosGame F) p t tr,
  1 <= shape self ->
  Z.of_nat (List.length (vertices self)) = shape self ->
  (n <= List.length t)%nat ->
  exists self' w', r0_for add mul self n p {| tape := t; trace := tr |}
                   = Done (self', w').
Proof.
  induction n as [| n IH]; intros self p t tr Hs Hl Hn.
  - eexists. eexists. reflexivity.
  - destruct t as [| x t]; [cbn in Hn; lia |].
    pose proof (into_range_bounds 0 (shape self - 1) x) as Hb.
    destruct (subscript_in_range (vertices self)
                (into_range 0 (shape self - 1) x)) as (v & Sv & _); [lia |].
    cbn [r0_for]. unfold bind at 1. unfold randint. cbn [tape trace].
    destruct (Z.ltb_spec (shape self - 1) 0); [lia |].
    unfold bind at 1. unfold bound_vertex, bind, observe, getitem.
    rewrite Sv. unfold ret. cbn [tape trace].
    apply IH; auto. cbn in Hn. lia.
Qed.

(** ** Lists of scaled sums *)

Lemma scaled_sums_length (ratio : F) (vs : list (F * F)) :
  forall p, List.length (scaled_sums add mul ratio p vs) = List.length vs.
Proof. induction vs as [| v vs IH]; intros p; cbn; auto. Qed.

Lemma chosen_vertices_length (self : ChaosGame F) indices vs :
  chosen_vertices self indices vs -> List.length vs = List.length indices.
Proof. intros H. symmetry. exact (Forall2_length H). Qed.

(** Under rule r0 the first random number decides the first point. *)
Lemma r0_first_point (self : ChaosGame F) (k x : Z) (t tr : list Z)
    self' w' v :
  rule self = "r0"%string -> 1 <= k ->
  play add mul self k {| tape := x :: t; trace := tr |} = Done (self', w') ->
  subscript (vertices self) (into_range 0 (shape self - 1) x) = Some v ->
  nth_error (points self') (List.length (points self))
  = Some (_get_mid_point add mul self (start self) v).
Proof.
  intros R0 Hk H Sv. unfold play in H. rewrite R0 in H.
  cbn [String.eqb Ascii.eqb Bool.eqb] in H. unfold _r0_play in H.
  replace (Z.to_nat k) with (S (Z.to_nat (k - 1))) in H by lia.
  cbn [r0_for] in H. unfold bind at 1 in H. unfold randint in H.
  cbn [tape trace] in H.
  destruct (shape self - 1 <? 0); [discriminate |].
  unfold bind at 1 in H. unfold bound_vertex, bind, observe, getitem in H.
  rewrite Sv in H. unfold ret in H. cbn [tape trace] in H.
  rewrite (r0_for_rule _ _ _ (seeded "r0")) in H. apply rule_for_inv in H.
  destruct H as (indices & vs & _ & _ & _ & P & _).
  cbn [append points ratio] in P.
  rewrite P, <- app_assoc, nth_error_app2, Nat.sub_diag by lia. reflexivity.
Qed.

Lemma play_r0_returns (self : ChaosGame F) (k : Z) (t tr : list Z) :
  rule self = "r0"%string ->
  1 <= shape self ->
  Z.of_nat (List.length (vertices self)) = shape self ->
  (Z.to_nat k <= List.length t)%nat ->
  exists self' w',
    play add mul self k {| tape := t; trace := tr |} = Done (self', w').
Proof.
  intros R0 Hs Hl Hn. unfold play. rewrite R0.
  cbn [String.eqb Ascii.eqb Bool.eqb]. unfold _r0_play.
  now apply r0_for_returns.
Qed.

(** ** The claims about [play], for every number type *)

(** C4. For every configured engine whose [points] are still empty and all
    k, j >= 0: [play(k)] and then [play(j)] raise nothing; whatever the random
    source holds, some further numbers let both calls return; and whenever
    both calls return, [points] has exactly k + j entries, and its first k
    entries are the k entries it had after the first call. *)
Theorem play_twice_appends (self : ChaosGame F) (k j : Z) (w : world) :
  configured self -> points self = [] -> 0 <= k -> 0 <= j ->
  (exists more self1 w1 self2 w2,
     play add mul self k (supplied w more) = Done (self1, w1) /\
     play add mul self1 j w1 = Done (self2, w2)) /\
  (forall w0 e,
     play add mul self k w0 <> Raise e /\
     forall self1 w1, play add mul self k w0 = Done (self1, w1) ->
                      play add mul self1 j w1 <> Raise e) /\
  (forall w0 self1 w1 self2 w2,
     play add mul self k w0 = Done (self1, w1) ->
     play add mul self1 j w1 = Done (self2, w2) ->
     Z.of_nat (List.length (points self2)) = k + j /\
     firstn (Z.to_nat k) (points self2) = points self1 /\
     Z.of_nat (List.length (points self1)) = k).
Proof.
  intros Hc Hp Hk Hj. pose proof Hc as (Hs & Hl & Hr).
  assert (Kept : forall w0 self1 w1,
             play add mul self k w0 = Done (self1, w1) -> configured self1).
  { intros w0 self1 w1 H1.
    destruct (play_inv _ _ _ _ _ Hr H1)
      as (_ & _ & _ & _ & _ & _ & _ & _ & C & _).
    exact (configured_kept _ _ C Hc). }
  split; [| split].
  - destruct (play_completes self k w Hc) as (more1 & self1 & w1 & H1).
    destruct (play_completes self1 j w1 (Kept _ _ _ (H1 [])))
      as (more2 & self2 & w2 & H2).
    exists (more1 ++ more2 ++ []), self1, (supplied w1 (more2 ++ [])),
      self2, (supplied w2 []).
    split; [apply H1 | apply H2].
  - intros w0 e. split; [now apply play_no_raise |].
    intros self1 w1 H1. apply play_no_raise. exact (Kept _ _ _ H1).
  - intros w0 self1 w1 self2 w2 H1 H2.
    apply play_inv in H1; [| exact Hr].
    destruct H1 as (i1 & v1 & L1 & _ & V1 & P1 & _ & _ & C1 & _).
    assert (Hr1 : In (rule self1) known_rules)
      by (destruct C1 as (-> & _); exact Hr).
    apply play_inv in H2; [| exact Hr1].
    destruct H2 as (i2 & v2 & L2 & _ & V2 & P2 & _ & _ & _ & _).
    apply chosen_vertices_length in V1, V2. unfold point in *.
    assert (N1 : List.length (points self1) = Z.to_nat k).
    { rewrite P1, Hp. cbn [app]. rewrite scaled_sums_length, V1. exact L1. }
    unfold point in *. repeat split.
    + rewrite P2, length_app, scaled_sums_length, V2, L2, N1. lia.
    + rewrite P2, <- N1, firstn_app, firstn_all, Nat.sub_diag. cbn [firstn].
      now rewrite app_nil_r.
    + lia.
Qed.


(** C10. For every rule, a call of [play] with at least one iteration starts
    its chain at the stored start point, whatever [points] already holds:
    the first point it appends is the scaled sum of [self.start] and the
    first chosen vertex, and the start point is the same after the call.
    For a configured engine the call raises nothing and, whatever the random
    source holds, some further numbers let it return. *)
Theorem play_restarts_from_start (self : ChaosGame F) (k : Z) :
  In (rule self) known_rules -> 1 <= k ->
  (configured self ->
   forall w,
     (forall e, play add mul self k w <> Raise e) /\
     exists more self' w',
       play add mul self k (supplied w more) = Done (self', w')) /\
  (forall w self' w',
     play add mul self k w = Done (self', w') ->
     exists i v rest,
       trace w' = trace w ++ i :: rest /\
       subscript (vertices self) i = Some v /\
       nth_error (points self') (List.length (points self))
       = Some (mul (add (fst (start self)) (fst v)) (ratio self),
               mul (add (snd (start self)) (snd v)) (ratio self)) /\
       start self' = start self).
Proof.
  intros Hr Hk. split.
  - intros Hc w. split; [intros e; now apply play_no_raise |].
    destruct (play_completes self k w Hc) as (more & self' & w' & H).
    exists (more ++ []), self', (supplied w' []). apply H.
  - intros w self' w' H. apply play_inv in H; [| exact Hr].
    destruct H as (indices & vs & L & T & V & P & _ & _ & C & _).
    destruct V as [| i v indices vs Sv V]; [cbn in L; lia |].
    exists i, v, indices. repeat split; auto; [| apply C].
    rewrite P, nth_error_app2, Nat.sub_diag by lia. reflexivity.
Qed.

(** C9, amended. For a rule identifier outside r0 .. r4, [play]
    returns without raising, appends no point and consumes no random
    number: it does not fall back to r0, and it signals nothing. *)
Theorem play_unknown_rule_returns (self : ChaosGame F) (k : Z) (w : world) :
  ~ In (rule self) known_rules ->
  play add mul self k w = Done (self, w).
Proof.
  intros Hr. unfold play, known_rules in *. cbn [In] in Hr.
  destruct (String.eqb_spec (rule self) "r0"); [exfalso; auto |].
  destruct (String.eqb_spec (rule self) "r1"); [exfalso; auto 6 |].
  destruct (String.eqb_spec (rule self) "r2"); [exfalso; auto 6 |].
  destruct (String.eqb_spec (rule self) "r3"); [exfalso; auto 7 |].
  destruct (String.eqb_spec (rule self) "r4"); [exfalso; auto 8 |].
  reflexivity.
Qed.

(** ** Rule r4 *)




End Loops.

(** ** Runs of the rational engine *)

Lemma triangle_configured (r : string) :
  In r known_rules -> configured (triangle r).
Proof. intros H. repeat split; [cbn; lia | exact H]. Qed.

(** Each of the five rules plays the triangle for 2 iterations and then for
    1 more, on a source that holds enough numbers for the resampling. *)
Lemma play_twice_appends_witness :
  Forall
    (fun r =>
       exists self1 w1 self2 w2,
         play_Q (triangle r) 2
           {| tape := [0; 2; 2; 1; 0; 0; 1; 2; 0; 1]; trace := [] |}
         = Done (self1, w1) /\
         play_Q self1 1 w1 = Done (self2, w2) /\
         Z.of_nat (List.length (points self2)) = 2 + 1 /\
         firstn (Z.to_nat 2) (points self2) = points self1 /\
         Z.of_nat (List.length (points self1)) = 2)
    known_rules.
Proof.
  unfold known_rules.
  repeat (apply Forall_cons;
    [ cbv beta;
      match goal with
      | |- context [triangle ?r] =>
          do 4 eexists; split; [lazy; reflexivity |];
          split; [lazy; reflexivity |];
          eapply (proj2 (proj2 (play_twice_appends Qplus Qmult (triangle r)
                                  2 1 {| tape := []; trace := [] |}
                                  (triangle_configured r
                                     ltac:(cbn; auto 6))
                                  eq_refl ltac:(lia) ltac:(lia)))
                    {| tape := [0; 2; 2; 1; 0; 0; 1; 2; 0; 1];
                       trace := [] |});
          lazy; reflexivity
      end
    |]).
  apply Forall_nil.
Defined.

(** After two iterations the engine is played again for one, under each of
    the five rules: the third point is computed from the start point
    (1/4, 1/4), not from the second point. *)
Lemma play_restarts_from_start_witness :
  Forall
    (fun r =>
       exists self1 w1 self2 w2,
         play_Q (triangle r) 2
           {| tape := [0; 2; 2; 1; 0; 0; 1; 2; 0; 1]; trace := [] |}
         = Done (self1, w1) /\
         play_Q self1 1 w1 = Done (self2, w2) /\
         exists i v rest,
           trace w2 = trace w1 ++ i :: rest /\
           subscript (vertices self1) i = Some v /\
           nth_error (points self2) (List.length (points self1))
           = Some (Qmult (Qplus (fst (start self1)) (fst v)) (ratio self1),
                   Qmult (Qplus (snd (start self1)) (snd v)) (ratio self1)) /\
           start self2 = start self1)
    known_rules.
Proof.
  unfold known_rules.
  repeat (apply Forall_cons;
    [ cbv beta;
      do 4 eexists; split; [lazy; reflexivity |];
      split; [lazy; reflexivity |];
      unshelve eapply (proj2 (play_restarts_from_start Qplus Qmult _ 1 _ _));
      first [lia | solve [lazy; auto 6] | lazy; reflexivity]
    |]).
  apply Forall_nil.
Defined.

Lemma play_unknown_rule_returns_witness :
  play_Q (triangle "r5") 1000 {| tape := [0; 1; 2]; trace := [] |}
  = Done (triangle "r5", {| tape := [0; 1; 2]; trace := [] |}).
Proof.
  apply (play_unknown_rule_returns Qplus Qmult (triangle "r5")).
  cbn. intros [H | [H | [H | [H | [H | []]]]]]; discriminate H.
Defined.

(** C9, counterexample. [play] with the unknown rule "r5" raises nothing:
    it returns, with the engine and the random source as they were. *)
Lemma play_unknown_rule_no_error :
  (forall e, play_Q (triangle "r5") 1000 {| tape := [0; 1; 2]; trace := [] |}
             <> Raise e) /\
  play_Q (triangle "r5") 1000 {| tape := [0; 1; 2]; trace := [] |}
  = Done (triangle "r5", {| tape := [0; 1; 2]; trace := [] |}).
Proof. split; [intros e; discriminate | reflexivity]. Qed.


(** C6, counterexample. The triangle under r4 is played for 2 iterations and
    chooses 0, 0; it is then played for 1 more and chooses 1, a neighbour of
    0, although the two indices chosen before are equal: the list [prev] is
    seeded anew by every call.  Offered the same numbers within one call,
    the engine refuses 1 and asks for more. *)
Lemma r4_exclusion_ends_with_the_call :
  exists self1 w1 self2 w2,
    play_Q (triangle "r4") 2 {| tape := [0; 0; 1]; trace := [] |}
    = Done (self1, w1) /\
    trace w1 = [0; 0] /\
    play_Q self1 1 w1 = Done (self2, w2) /\
    trace w2 = [0; 0; 1] /\
    1 = (0 + 1) mod shape self1 /\
    play_Q (triangle "r4") 3 {| tape := [0; 0; 1]; trace := [] |} = Starved.
Proof.
  do 4 eexists. split; [lazy; reflexivity |]. split; [reflexivity |].
  split; [lazy; reflexivity |]. repeat split.
Qed.

(** ** The first iteration and the seeded history *)

(** Rules r0, r1 and r4 refuse no index of [0, vertex_count) on the first
    iteration. *)
Lemma first_iteration_accepts (r : string) (shape c : Z) :
  r = "r0"%string \/ r = "r1"%string \/ r = "r4"%string ->
  0 <= c < shape ->
  refused r shape (seeded r) c = false.
Proof.
  intros [-> | [-> | ->]] Hc; cbn; [reflexivity | lia | reflexivity].
Qed.

(** Rule r2 refuses one: the seed -2 is taken modulo the vertex count, and
    (-2 - 1) mod vertex_count is an index of the polygon. *)
Lemma first_iteration_r2_refuses (shape : Z) :
  3 <= shape ->
  0 <= (-3) mod shape < shape /\
  refused "r2" shape (seeded "r2") ((-3) mod shape) = true.
Proof.
  intros Hs. split; [apply Z.mod_pos_bound; lia |].
  unfold refused, seeded. cbn [String.eqb Ascii.eqb Bool.eqb snd].
  apply Z.eqb_refl.
Qed.

(** Rule r3 refuses the last index: (-2 + 1) mod vertex_count. *)
Lemma first_iteration_r3_refuses (shape : Z) :
  3 <= shape ->
  refused "r3" shape (seeded "r3") (shape - 1) = true.
Proof.
  intros Hs. unfold refused, seeded. cbn [String.eqb Ascii.eqb Bool.eqb snd].
  apply Z.eqb_eq. change (-2 + 1) with (-1).
  apply Z.mod_unique with (q := -1); lia.
Qed.

(** C3 (the triangle under rule r2). On the first iteration of the first
    call of [play], with the history still the seed -2, the candidate 0 is
    refused: (-2 - 1) % 3 is 0.  Offered 0 and then 1, the call chooses 1. *)
Theorem first_iteration_r2_rejects_candidate :
  refused "r2" 3 (seeded "r2") 0 = true /\
  exists self',
    play_Q (triangle "r2") 1 {| tape := [0; 0; 1]; trace := [] |}
    = Done (self', {| tape := []; trace := [1] |}).
Proof. split; [reflexivity |]. eexists. lazy. reflexivity. Qed.

(** ** Rounding, over the real numbers *)

Section RealFacts.

Local Open Scope R_scope.


(** A real number strictly within 1/2 of the integer [k] rounds to [k]. *)
Lemma round_half_even_near (y : R) (k : Z) :
  IZR k - 1 / 2 < y < IZR k + 1 / 2 -> round_half_even y = k.
Proof.
  intros [Hl Hu]. unfold round_half_even.
  destruct (Rle_lt_dec (IZR k) y) as [Hk | Hk].
  - rewrite <- (Int_part_spec y k) by lra.
    destruct (Rlt_dec (y - IZR k) (1 / 2)); [reflexivity | lra].
  - rewrite <- (Int_part_spec y (k - 1)) by (rewrite minus_IZR; lra).
    rewrite minus_IZR.
    destruct (Rlt_dec (y - (IZR k - 1)) (1 / 2)); [lra |].
    destruct (Rlt_dec (1 / 2) (y - (IZR k - 1))); [lia | lra].
Qed.



Lemma round_2_near (x : R) (k : Z) :
  IZR k - 1 / 2 < x * 100 < IZR k + 1 / 2 -> round x 2 = IZR k / 100.
Proof.
  intros H. unfold round. change (10 ^ 2)%Z with 100%Z.
  now rewrite (round_half_even_near _ k H).
Qed.

(** ** The polygon *)

(** The vertex of index [k] of a polygon with [n] vertices: the point
    (-sin, cos) of the angle [k * (2 * PI / n)], rounded. *)
Lemma polygon_vertices (n : Z) :
  n <> 0%Z -> float_overflows n = false ->
  _generate_polygon n
  = Done ((0, 1) ::
          map (fun k => (round (- sin (IZR k * (2 * PI / IZR n))) 2,
                         round (cos (IZR k * (2 * PI / IZR n))) 2))
              (range2 1 n)).
Proof.
  intros Hn Hf. unfold _generate_polygon. rewrite Hf.
  destruct (Z.eqb_spec n 0); [contradiction |].
  cbn [app]. do 2 f_equal. apply map_ext. intros k.
  f_equal; f_equal; ring.
Qed.



(** The triangle: [_generate_polygon(3)] stores (0, 1), (-0.87, -0.5) and
    (0.87, -0.5). *)
Lemma polygon_3 :
  _generate_polygon 3 = Done [(0, 1); (-0.87, -0.5); (0.87, -0.5)].
Proof.
  rewrite polygon_vertices by (try reflexivity; lia).
  change (range2 1 3) with [1%Z; 2%Z]. cbn [map].
  assert (S3 : 1.73 < sqrt 3 < 1.74).
  { split.
    - apply Rsqr_incrst_0; try lra; [| apply sqrt_pos].
      unfold Rsqr. rewrite sqrt_sqrt by lra. lra.
    - apply Rsqr_incrst_0; try lra; [| apply sqrt_pos].
      unfold Rsqr. rewrite sqrt_sqrt by lra. lra. }
  assert (E1 : 1 * (2 * PI / 3) = 2 * (PI / 3)) by lra.
  assert (E2 : 2 * (2 * PI / 3) = PI / 3 + PI) by lra.
  rewrite E1, E2, sin_2PI3, cos_2PI3, neg_sin, neg_cos, sin_PI3, cos_PI3.
  rewrite (round_2_near (- (sqrt 3 / 2)) (-87)) by lra.
  rewrite (round_2_near (-1 / 2) (-50)) by lra.
  rewrite (round_2_near (- - (sqrt 3 / 2)) 87) by lra.
  rewrite (round_2_near (- (1 / 2)) (-50)) by lra.
  repeat f_equal; lra.
Qed.

(** ** The start point and the triangle *)

Lemma strictly_inside_in_hull (vs : list (R * R)) (p : R * R) :
  strictly_inside vs p -> in_hull vs p.
Proof.
  intros (ws & L & P & T & C). exists ws. repeat split; auto.
  eapply Forall_impl; [| exact P]. intros a Ha. cbv beta in Ha. lra.
Qed.

(** The point (0.21875, 0.71875) is not in the hull of the triangle. *)
Lemma outside_triangle :
  ~ in_hull [(0, 1); (-0.87, -0.5); (0.87, -0.5)] (0.21875, 0.71875).
Proof.
  intros (ws & L & P & T & C).
  destruct ws as [| a [| b [| c [| d ws]]]]; try discriminate L.
  cbn [total combination fst snd] in T, C.
  apply pair_equal_spec in C. destruct C as [Cx Cy].
  inversion P as [| ? ? Ha P1]; subst.
  inversion P1 as [| ? ? Hb P2]; subst.
  inversion P2 as [| ? ? Hc _]; subst.
  lra.
Qed.

(** C8 (a triangle game that leaves the hull). The engine is built with
    shape 3, rule r0 and ratio 0.5; [random.random()] returns 0.9375, so the
    start point is (0.4375, 0.4375), which is outside the triangle; every
    [randint] returns 0.  [play(100000)] returns, and the first point it
    appends, (0.21875, 0.71875), is not in the convex hull of the three
    vertices. *)
Theorem triangle_first_point_outside_hull :
  exists game game' w',
    __init__ 3 "r0" 0.5 0.9375 = Done game /\
    start game = (0.4375, 0.4375) /\
    vertices game = [(0, 1); (-0.87, -0.5); (0.87, -0.5)] /\
    play_R game 100000
      {| tape := repeat 0%Z (Z.to_nat 100000); trace := [] |}
    = Done (game', w') /\
    nth_error (points game') 0 = Some (0.21875, 0.71875) /\
    ~ in_hull (vertices game) (0.21875, 0.71875) /\
    ~ strictly_inside (vertices game) (0.21875, 0.71875).
Proof.
  unfold __init__. rewrite polygon_3.
  set (game := {| rule := "r0"; ratio := 0.5;
                  vertices := [(0, 1); (-0.87, -0.5); (0.87, -0.5)];
                  shape := 3; start := _random_start_point 0.9375;
                  points := [] |}).
  assert (Es : start game = (0.4375, 0.4375)).
  { cbn. unfold _random_start_point. f_equal; lra. }
  destruct (play_r0_returns Rplus Rmult game 100000
              (repeat 0%Z (Z.to_nat 100000)) [])
    as (game' & w' & H).
  { reflexivity. }
  { cbn. lia. }
  { reflexivity. }
  { rewrite repeat_length. apply le_n. }
  exists game, game', w'.
  split; [reflexivity |]. split; [exact Es |]. split; [reflexivity |].
  split; [exact H |].
  split; [| split].
  - replace (Z.to_nat 100000) with (S (Z.to_nat 99999)) in H by lia.
    cbn [repeat] in H.
    apply (r0_first_point Rplus Rmult game 100000 0%Z _ _ _ _ (0, 1)) in H;
      try reflexivity; [| lia].
    change (List.length (points game)) with 0%nat in H. rewrite H. f_equal.
    unfold _get_mid_point. rewrite Es. cbn [fst snd ratio game].
    f_equal; lra.
  - exact outside_triangle.
  - intros Hin. apply outside_triangle.
    now apply strictly_inside_in_hull.
Qed.

(** ** Bounds on [PI], [sin] and [cos] *)








(** ** Distance from the origin *)



(** ** Distinct vertices *)







(** ** The formula of the appended points *)


End RealFacts.


End ChaosFacts.

(* ================================================================== *)
(** * Part V: the Hilbert curve as a path                              *)
(* ================================================================== *)

Module HilbertPath.
Import Hilbert HilbertFacts Grid.

(** ** Only the low digits of the index count *)

Lemma mod_4_split (k : nat) (index : Z) :
  index mod 4 ^ Z.of_nat (S k)
  = index mod 4 + 4 * ((index / 4) mod 4 ^ Z.of_nat k).
Proof.
  rewrite pow4_S. apply Z.rem_mul_r; [lia |].
  assert (0 < 4 ^ Z.of_nat k) by (apply Z.pow_pos_nonneg; lia). lia.
Qed.

Lemma decode_low_digits (k : nat) : forall h index x y,
  decode k h (index mod 4 ^ Z.of_nat k) x y = decode k h index x y.
Proof.
  induction k as [| k IH]; intros h index x y; [reflexivity |].
  assert (P : 0 < 4 ^ Z.of_nat k) by (apply Z.pow_pos_nonneg; lia).
  pose proof (Z.mod_pos_bound (index / 4) (4 ^ Z.of_nat k) P) as Hq.
  pose proof (Z.mod_pos_bound index 4 ltac:(lia)) as Hr.
  cbn [decode]. rewrite mod_4_split.
  set (r := index mod 4) in *. set (q := (index / 4) mod 4 ^ Z.of_nat k) in *.
  assert (Em : _bit_mask (r + 4 * q) = _bit_mask index).
  { rewrite !bit_mask_mod. fold r.
    rewrite Z.mul_comm, Z.mod_add by lia. apply Z.mod_small; lia. }
  assert (Es : Z.shiftr (r + 4 * q) 2 = q).
  { rewrite shiftr2_div, Z.mul_comm, Z.div_add by lia.
    rewrite Z.div_small; lia. }
  rewrite Em, Es. destruct (quadrant h (_bit_mask index) x y) as [x1 y1].
  unfold q. rewrite IH. now rewrite shiftr2_div.
Qed.

(** X4 (wrap-around). For every order >= 1 and every integer index, negative
    ones included, the method returns what it returns for the index reduced
    modulo N*N: digits beyond the first [order] ones are never read. *)
Theorem x2xy_wraps_modulo (order index : Z) :
  1 <= order ->
  _hilbert_curve_x2xy (2 ^ order) index
  = _hilbert_curve_x2xy (2 ^ order) (index mod (2 ^ order * 2 ^ order)).
Proof.
  intros Ho. rewrite !x2xy_decode by lia. rewrite square_pow by lia.
  now rewrite decode_low_digits.
Qed.

Lemma x2xy_wraps_modulo_witness :
  _hilbert_curve_x2xy (2 ^ 2) (-1)
  = _hilbert_curve_x2xy (2 ^ 2) ((-1) mod (2 ^ 2 * 2 ^ 2)).
Proof. apply (x2xy_wraps_modulo 2 (-1)). lia. Defined.

(** ** The most significant digit chooses the quadrant *)

Lemma decode_top_digit (k : nat) : forall h index x y,
  decode (S k) h index x y
  = let '(x', y') := decode k h index x y in
    quadrant (h * 2 ^ Z.of_nat k) (_bit_mask (index / 4 ^ Z.of_nat k)) x' y'.
Proof.
  induction k as [| k IH]; intros h index x y.
  - cbn [decode]. change (2 ^ Z.of_nat 0) with 1. change (4 ^ Z.of_nat 0) with 1.
    rewrite Z.mul_1_r, Z.div_1_r.
    now destruct (quadrant h (_bit_mask index) x y).
  - assert (P : 0 < 4 ^ Z.of_nat k) by (apply Z.pow_pos_nonneg; lia).
    change (decode (S (S k)) h index x y)
      with (let '(x1, y1) := quadrant h (_bit_mask index) x y in
            decode (S k) (2 * h) (Z.shiftr index 2) x1 y1).
    change (decode (S k) h index x y)
      with (let '(x1, y1) := quadrant h (_bit_mask index) x y in
            decode k (2 * h) (Z.shiftr index 2) x1 y1).
    destruct (quadrant h (_bit_mask index) x y) as [x1 y1].
    rewrite IH. rewrite pow2_S, pow4_S, shiftr2_div.
    rewrite Z.div_div by lia.
    now replace (2 * h * 2 ^ Z.of_nat k) with (h * (2 * 2 ^ Z.of_nat k)) by ring.
Qed.

(** Each of the four transformations keeps neighbours neighbours. *)
Lemma quadrant_adjacent (h d x1 y1 x2 y2 : Z) :
  0 <= d < 4 ->
  adjacent (x1, y1) (x2, y2) ->
  adjacent (quadrant h d x1 y1) (quadrant h d x2 y2).
Proof.
  unfold adjacent. cbn [fst snd]. intros Hd H.
  digit_cases d; run_quadrant; cbn [fst snd]; lia.
Qed.

(** The curve over [k] digits starts at the origin, ends at the lower right
    corner, and goes from each cell to a neighbour. *)
Lemma decode_path (k : nat) :
  decode k 1 (4 ^ Z.of_nat k - 1) 0 0 = (2 ^ Z.of_nat k - 1, 0) /\
  forall i, 0 <= i < 4 ^ Z.of_nat k - 1 ->
            adjacent (decode k 1 i 0 0) (decode k 1 (i + 1) 0 0).
Proof.
  induction k as [| k [IHe IHs]].
  - split; [reflexivity |]. cbn. intros i Hi. lia.
  - assert (P4 : 0 < 4 ^ Z.of_nat k) by (apply Z.pow_pos_nonneg; lia).
    assert (P2 : 0 < 2 ^ Z.of_nat k) by (apply Z.pow_pos_nonneg; lia).
    set (m := 4 ^ Z.of_nat k) in *. set (s := 2 ^ Z.of_nat k) in *.
    assert (Top : forall d r, 0 <= d < 4 -> 0 <= r < m ->
              decode (S k) 1 (m * d + r) 0 0
              = let '(x', y') := decode k 1 r 0 0 in quadrant s d x' y').
    { intros d r Hd Hr. rewrite decode_top_digit. fold m.
      rewrite <- (decode_low_digits k 1 (m * d + r)). fold m.
      replace ((m * d + r) mod m) with r
        by (apply Z.mod_unique with (q := d); lia).
      replace ((m * d + r) / m) with d
        by (apply Z.div_unique with (r := r); lia).
      rewrite bit_mask_mod, Z.mod_small by lia.
      rewrite Z.mul_1_l. reflexivity. }
    split.
    + rewrite pow4_S, pow2_S. fold m s.
      replace (4 * m - 1) with (m * 3 + (m - 1)) by ring.
      rewrite Top by lia. rewrite IHe. run_quadrant. f_equal; lia.
    + rewrite pow4_S. fold m. intros i Hi.
      pose proof (Z.div_mod i m ltac:(lia)) as E.
      pose proof (Z.mod_pos_bound i m P4) as Hr.
      assert (Hd : 0 <= i / m < 4).
      { split; [apply Z.div_pos; lia | apply Z.div_lt_upper_bound; lia]. }
      remember (i / m) as d eqn:Ed. remember (i mod m) as r eqn:Err.
      clear Ed Err. rewrite E.
      destruct (Z.eq_dec r (m - 1)) as [Er | Er].
      * assert (d < 3) by nia.
        replace (m * d + r + 1) with (m * (d + 1) + 0) by lia.
        rewrite !Top by lia. rewrite Er, IHe, decode_origin.
        unfold adjacent.
        digit_cases d;
          [change (0 + 1) with 1 | change (1 + 1) with 2
           | change (2 + 1) with 3 | lia];
          run_quadrant; cbn [fst snd]; lia.
      * replace (m * d + r + 1) with (m * d + (r + 1)) by lia.
        rewrite !Top by lia.
        specialize (IHs r ltac:(lia)).
        destruct (decode k 1 r 0 0) as [x1 y1].
        destruct (decode k 1 (r + 1) 0 0) as [x2 y2].
        now apply quadrant_adjacent.
Qed.

(** X5 (path). For every order >= 1, consecutive indices of 0 .. N*N - 1 are
    mapped to neighbouring cells: the curve moves one step up, down, left or
    right at a time. *)
Theorem hilbert_consecutive_adjacent (order i : Z) :
  1 <= order ->
  0 <= i < 2 ^ order * 2 ^ order - 1 ->
  exists p q,
    _hilbert_curve_x2xy (2 ^ order) i = Some p /\
    _hilbert_curve_x2xy (2 ^ order) (i + 1) = Some q /\
    adjacent p q.
Proof.
  intros Ho Hi. rewrite !x2xy_decode by lia. rewrite square_pow in Hi by lia.
  do 2 eexists. split; [reflexivity |]. split; [reflexivity |].
  now apply decode_path.
Qed.

Lemma hilbert_consecutive_adjacent_witness :
  exists p q,
    _hilbert_curve_x2xy (2 ^ 3) 31 = Some p /\
    _hilbert_curve_x2xy (2 ^ 3) (31 + 1) = Some q /\
    adjacent p q.
Proof. apply (hilbert_consecutive_adjacent 3 31); lia. Defined.

(** X6 (end points). For every order >= 1 the curve starts at the origin and
    ends at the lower right corner: index 0 is mapped to (0, 0) and index
    N*N - 1 to (N - 1, 0). *)
Theorem hilbert_end_points (order : Z) :
  1 <= order ->
  _hilbert_curve_x2xy (2 ^ order) 0 = Some (0, 0) /\
  _hilbert_curve_x2xy (2 ^ order) (2 ^ order * 2 ^ order - 1)
  = Some (2 ^ order - 1, 0).
Proof.
  intros Ho. rewrite !x2xy_decode by lia. rewrite square_pow by lia.
  rewrite decode_origin. split; [reflexivity |].
  destruct (decode_path (Z.to_nat order)) as [E _]. rewrite E.
  now rewrite Z2Nat.id by lia.
Qed.

Lemma hilbert_end_points_witness :
  _hilbert_curve_x2xy (2 ^ 4) 0 = Some (0, 0) /\
  _hilbert_curve_x2xy (2 ^ 4) (2 ^ 4 * 2 ^ 4 - 1) = Some (2 ^ 4 - 1, 0).
Proof. apply (hilbert_end_points 4). lia. Defined.

End HilbertPath.

(* ================================================================== *)
(** * Part VI: more about the chaos game                               *)
(* ================================================================== *)

Module ChaosMore.
Import Chaos ChaosFacts.

Section Rules.

Context {F : Type} (add mul : F -> F -> F).

(** ** What the rules exclude *)

Lemma accepted_pair (r : string) (shape : Z) : forall pre h a b post,
  accepted r shape h (pre ++ a :: b :: post) ->
  exists older, refused r shape (older, a) b = false.
Proof.
  induction pre as [| x pre IH]; intros h a b post H.
  - cbn [app accepted] in H. destruct H as (_ & H & _).
    exists (snd h). exact H.
  - cbn [app accepted] in H. destruct H as (_ & H). eapply IH; eauto.
Qed.

(** X7 (rule r1). Under rule r1, within one call of [play], no vertex index
    is chosen twice in a row. *)
Theorem r1_never_repeats (self : ChaosGame F) (k : Z) (w : world) self' w' :
  rule self = "r1"%string ->
  play add mul self k w = Done (self', w') ->
  exists indices,
    trace w' = trace w ++ indices /\
    List.length indices = Z.to_nat k /\
    forall pre a b post, indices = pre ++ a :: b :: post -> b <> a.
Proof.
  intros R1 H. apply play_inv in H; [| rewrite R1; cbn; auto].
  destruct H as (indices & vs & L & T & _ & _ & A & _).
  exists indices. repeat split; auto.
  intros pre a b post E. rewrite R1, E in A.
  apply accepted_pair in A. destruct A as (older & A).
  unfold refused in A. cbn [String.eqb Ascii.eqb Bool.eqb snd] in A. lia.
Qed.

(** X8 (rules r2 and r3). Under rule r2, within one call of [play], the index
    chosen after [a] is never (a - 1) mod vertex_count; under rule r3 it is
    never (a + 1) mod vertex_count. *)
Theorem r2_r3_never_step (self : ChaosGame F) (k : Z) (w : world) self' w' :
  rule self = "r2"%string \/ rule self = "r3"%string ->
  play add mul self k w = Done (self', w') ->
  exists indices,
    trace w' = trace w ++ indices /\
    List.length indices = Z.to_nat k /\
    forall pre a b post,
      indices = pre ++ a :: b :: post ->
      (rule self = "r2"%string -> b <> (a - 1) mod shape self) /\
      (rule self = "r3"%string -> b <> (a + 1) mod shape self).
Proof.
  intros R H. apply play_inv in H;
    [| destruct R as [-> | ->]; cbn; auto].
  destruct H as (indices & vs & L & T & _ & _ & A & _).
  exists indices. repeat split; auto; intros R'; rewrite R' in A;
    subst indices; apply accepted_pair in A; destruct A as (older & A);
    unfold refused in A; cbn [String.eqb Ascii.eqb Bool.eqb snd] in A; lia.
Qed.

(** ** What every call keeps *)

Lemma play_unknown (self : ChaosGame F) (k : Z) (w : world) :
  ~ In (rule self) known_rules -> play add mul self k w = Done (self, w).
Proof.
  intros Hr. unfold play, known_rules in *. cbn [In] in Hr.
  destruct (String.eqb_spec (rule self) "r0"); [exfalso; auto |].
  destruct (String.eqb_spec (rule self) "r1"); [exfalso; auto 6 |].
  destruct (String.eqb_spec (rule self) "r2"); [exfalso; auto 6 |].
  destruct (String.eqb_spec (rule self) "r3"); [exfalso; auto 7 |].
  destruct (String.eqb_spec (rule self) "r4"); [exfalso; auto 8 |].
  reflexivity.
Qed.

(** X9 (append only). Whatever the rule identifier, a call of [play] that
    returns has only appended to [points]: the old list is a prefix of the
    new one, and the rule, ratio, vertices, shape and start point are
    unchanged. *)
Theorem play_only_appends (self : ChaosGame F) (k : Z) (w : world) self' w' :
  play add mul self k w = Done (self', w') ->
  same_configuration self self' /\
  exists new, points self' = points self ++ new.
Proof.
  intros H.
  destruct (in_dec string_dec (rule self) known_rules) as [Hr | Hr].
  - apply play_inv in H; [| exact Hr].
    destruct H as (indices & vs & _ & _ & _ & P & _ & _ & C & _).
    split; [exact C |]. eauto.
  - rewrite play_unknown in H by exact Hr. injection H as <- <-.
    split; [repeat split |]. exists []. now rewrite app_nil_r.
Qed.

(** X10 (indices in range). For each of the five rules, every index a call of
    [play] chooses lies in [0, vertex_count) and selects a vertex of the
    polygon. *)
Theorem play_chooses_vertices (self : ChaosGame F) (k : Z) (w : world)
    self' w' :
  In (rule self) known_rules ->
  play add mul self k w = Done (self', w') ->
  exists indices,
    trace w' = trace w ++ indices /\
    Forall (fun i => 0 <= i < shape self /\
                     exists v, subscript (vertices self) i = Some v /\
                               In v (vertices self)) indices.
Proof.
  intros Hr H. apply play_inv in H; [| exact Hr].
  destruct H as (indices & vs & _ & T & V & _ & _ & Rg & _).
  exists indices. split; [exact T |].
  unfold chosen_vertices in V. clear T.
  induction V as [| i v indices vs Sv V IH]; [constructor |].
  inversion Rg as [| ? ? Hi Rg']; subst. constructor; [| now apply IH].
  split; [exact Hi |]. exists v. split; [exact Sv |].
  unfold subscript in Sv.
  destruct ((0 <=? i) && (i <? Z.of_nat (List.length (vertices self))));
    [now apply nth_error_In in Sv |].
  destruct ((- Z.of_nat (List.length (vertices self)) <=? i) && (i <? 0));
    [now apply nth_error_In in Sv | discriminate].
Qed.

(** ** Random numbers consumed *)

Lemma rule_for_draws (r : string) (n : nat) :
  forall (self : ChaosGame F) p h w self' w',
    rule_for add mul r self n p h w = Done (self', w') ->
    exists used,
      tape w = used ++ tape w' /\
      (n <= List.length used)%nat /\
      ((forall h' i, refused r (shape self) h' i = false) ->
       List.length used = n).
Proof.
  induction n as [| n IH]; intros self p h w self' w' H.
  - cbn in H. unfold ret in H. injection H as <- <-.
    exists []. repeat split; auto.
  - cbn [rule_for] in H. unfold bind at 1 in H.
    destruct (randint 0 (shape self - 1) w) as [[i w1] | |] eqn:R;
      try discriminate.
    unfold bind at 1 in H.
    destruct (while_rejected _ _ i w1) as [[j w2] | |] eqn:W;
      try discriminate.
    unfold bind at 1 in H.
    destruct (bound_vertex self j w2) as [[v w3] | |] eqn:B;
      try discriminate.
    apply randint_inv in R. destruct R as (_ & _ & _ & r0 & Tp1 & _).
    apply bound_vertex_inv in B. destruct B as (_ & Tp3 & _).
    apply IH in H. destruct H as (used & Htp & Hle & Heq).
    cbn [append shape] in Heq.
    pose proof W as W'. apply while_rejected_inv in W'.
    destruct W' as (_ & _ & _ & used2 & Tp2).
    exists (r0 :: used2 ++ used). split; [| split].
    + rewrite Tp1, Tp2, <- Tp3, Htp. cbn [app]. now rewrite app_assoc.
    + cbn [List.length]. rewrite length_app. lia.
    + intros Hno. rewrite while_rejected_accept in W by apply Hno.
      injection W as <- <-.
      assert (used2 = []).
      { apply (app_inv_tail (tape w1)). cbn [app]. exact (eq_sym Tp2). }
      subst used2. cbn [app List.length]. now rewrite Heq.
Qed.

(** X11 (random numbers). A call [play(k)] that returns has consumed a prefix
    of the random source: at least k numbers under every rule, and exactly k
    under rule r0, which never resamples. *)
Theorem play_consumes (self : ChaosGame F) (k : Z) (w : world) self' w' :
  In (rule self) known_rules ->
  play add mul self k w = Done (self', w') ->
  exists used,
    tape w = used ++ tape w' /\
    (Z.to_nat k <= List.length used)%nat /\
    (rule self = "r0"%string -> List.length used = Z.to_nat k).
Proof.
  intros Hr H. unfold play in H.
  destruct Hr as [Hr | [Hr | [Hr | [Hr | [Hr | []]]]]]; rewrite <- Hr in *;
    cbn [String.eqb Ascii.eqb Bool.eqb] in H.
  - unfold _r0_play in H. rewrite (r0_for_rule _ _ _ _ _ (seeded "r0")) in H.
    apply rule_for_draws in H. destruct H as (used & H1 & H2 & H3).
    exists used. repeat split; auto.
  - unfold _r1_play, bind in H.
    destruct (randint 0 (shape self - 1) w) as [[i w1] | |] eqn:R;
      try discriminate.
    rewrite (r1_for_rule _ _ _ _ _ (-2)) in H. apply rule_for_draws in H.
    apply randint_inv in R. destruct R as (_ & _ & _ & r & Tp & _).
    destruct H as (used & H1 & H2 & _).
    exists (r :: used). rewrite Tp, H1. cbn [List.length app].
    repeat split; [lia | discriminate].
  - unfold _r2_play, bind in H.
    destruct (randint 0 (shape self - 1) w) as [[i w1] | |] eqn:R;
      try discriminate.
    rewrite (r2_for_rule _ _ _ _ _ (-2)) in H. apply rule_for_draws in H.
    apply randint_inv in R. destruct R as (_ & _ & _ & r & Tp & _).
    destruct H as (used & H1 & H2 & _).
    exists (r :: used). rewrite Tp, H1. cbn [List.length app].
    repeat split; [lia | discriminate].
  - unfold _r2_play, bind in H.
    destruct (randint 0 (shape self - 1) w) as [[i w1] | |] eqn:R;
      try discriminate.
    rewrite (r3_for_rule _ _ _ _ _ (-2)) in H. apply rule_for_draws in H.
    apply randint_inv in R. destruct R as (_ & _ & _ & r & Tp & _).
    destruct H as (used & H1 & H2 & _).
    exists (r :: used). rewrite Tp, H1. cbn [List.length app].
    repeat split; [lia | discriminate].
  - unfold _r4_play in H. rewrite r4_for_rule in H.
    apply rule_for_draws in H. destruct H as (used & H1 & H2 & _).
    exists used. repeat split; [exact H1 | exact H2 | discriminate].
Qed.

(** X12 (no iterations). A call of [play] with k <= 0 appends nothing and
    chooses nothing; under rules r0 and r4 it leaves the random source as it
    was, but under r1, r2 and r3 it still draws one number. *)
Theorem play_without_iterations (self : ChaosGame F) (k : Z) (w : world)
    self' w' :
  k <= 0 -> In (rule self) known_rules ->
  play add mul self k w = Done (self', w') ->
  self' = self /\ trace w' = trace w /\
  (rule self = "r0"%string \/ rule self = "r4"%string -> tape w' = tape w) /\
  (rule self = "r1"%string \/ rule self = "r2"%string \/
   rule self = "r3"%string -> exists r, tape w = r :: tape w').
Proof.
  intros Hk Hr H. unfold play in H.
  replace (Z.to_nat k) with 0%nat in * by lia.
  destruct Hr as [Hr | [Hr | [Hr | [Hr | [Hr | []]]]]]; rewrite <- Hr in *;
    cbn [String.eqb Ascii.eqb Bool.eqb] in H.
  - unfold _r0_play in H. replace (Z.to_nat k) with 0%nat in H by lia.
    cbn in H. unfold ret in H. injection H as <- <-.
    repeat split; auto. intros [E | [E | E]]; discriminate E.
  - unfold _r1_play, bind in H. replace (Z.to_nat k) with 0%nat in H by lia.
    destruct (randint 0 (shape self - 1) w) as [[i w1] | |] eqn:R;
      try discriminate.
    cbn in H. unfold ret in H. injection H as <- <-.
    apply randint_inv in R. destruct R as (_ & _ & Tr & r & Tp & _).
    repeat split; auto; [intros [E | E]; discriminate E | eauto].
  - unfold _r2_play, bind in H. replace (Z.to_nat k) with 0%nat in H by lia.
    destruct (randint 0 (shape self - 1) w) as [[i w1] | |] eqn:R;
      try discriminate.
    cbn in H. unfold ret in H. injection H as <- <-.
    apply randint_inv in R. destruct R as (_ & _ & Tr & r & Tp & _).
    repeat split; auto; [intros [E | E]; discriminate E | eauto].
  - unfold _r2_play, bind in H. replace (Z.to_nat k) with 0%nat in H by lia.
    destruct (randint 0 (shape self - 1) w) as [[i w1] | |] eqn:R;
      try discriminate.
    cbn in H. unfold ret in H. injection H as <- <-.
    apply randint_inv in R. destruct R as (_ & _ & Tr & r & Tp & _).
    repeat split; auto; [intros [E | E]; discriminate E | eauto].
  - unfold _r4_play in H. replace (Z.to_nat k) with 0%nat in H by lia.
    cbn in H. unfold ret in H. injection H as <- <-.
    repeat split; auto. intros [E | [E | E]]; discriminate E.
Qed.

(** ** Too few vertices *)

Lemma randint_empty_range (b : Z) (w : world) :
  b < 0 -> randint 0 b w = Raise ValueError.
Proof. intros H. unfold randint. now destruct (Z.ltb_spec b 0); [| lia]. Qed.

Lemma play_raises_without_vertices (self : ChaosGame F) (k : Z) (w : world) :
  shape self <= 0 ->
  In (rule self) known_rules ->
  1 <= k \/ rule self = "r1"%string \/ rule self = "r2"%string \/
  rule self = "r3"%string ->
  play add mul self k w = Raise ValueError.
Proof.
  intros Hs Hr Hk. unfold play.
  assert (E : forall w0, randint 0 (shape self - 1) w0 = Raise ValueError)
    by (intros w0; apply randint_empty_range; lia).
  destruct Hr as [Hr | [Hr | [Hr | [Hr | [Hr | []]]]]]; rewrite <- Hr in *;
    cbn [String.eqb Ascii.eqb Bool.eqb].
  - destruct Hk as [Hk | [Hk | [Hk | Hk]]]; try discriminate Hk.
    unfold _r0_play. replace (Z.to_nat k) with (S (Z.to_nat (k - 1))) by lia.
    cbn [r0_for]. unfold bind at 1. now rewrite E.
  - unfold _r1_play, bind. now rewrite E.
  - unfold _r2_play, bind. now rewrite E.
  - unfold _r2_play, bind. now rewrite E.
  - destruct Hk as [Hk | [Hk | [Hk | Hk]]]; try discriminate Hk.
    unfold _r4_play. replace (Z.to_nat k) with (S (Z.to_nat (k - 1))) by lia.
    cbn [r4_for]. unfold bind at 1. now rewrite E.
Qed.

(** X13 (no vertex). With a vertex count of 0 or less, [play] raises
    [ValueError] (from [randint(0, shape - 1)], an empty range) under each of
    the five rules as soon as it draws a number: for every k >= 1, and under
    r1, r2 and r3 for every k. *)
Theorem play_empty_range_raises (self : ChaosGame F) (k : Z) (w : world) :
  shape self <= 0 ->
  In (rule self) known_rules ->
  1 <= k \/ rule self = "r1"%string \/ rule self = "r2"%string \/
  rule self = "r3"%string ->
  play add mul self k w = Raise ValueError.
Proof. apply play_raises_without_vertices. Qed.

Lemma resample_stuck (rejected : Z -> bool) :
  rejected 0 = true ->
  forall t, resample 1 rejected 0 t = Starved.
Proof.
  intros Hr. induction t as [| r t IH]; cbn [resample]; rewrite Hr.
  - reflexivity.
  - change (1 - 1 <? 0) with false. cbv iota.
    unfold into_range. change (1 - 1 - 0 + 1) with 1.
    rewrite Z.mod_1_r. exact IH.
Qed.

Lemma rule_for_stuck (r : string) (self : ChaosGame F) (h : Z * Z) :
  shape self = 1 -> refused r 1 h 0 = true ->
  forall n p w, rule_for add mul r self (S n) p h w = Starved.
Proof.
  intros Hs Hr n p w. cbn [rule_for]. unfold bind at 1.
  unfold randint. rewrite Hs. change (1 - 1 <? 0) with false. cbv iota.
  destruct (tape w) as [| x t]; [reflexivity |].
  unfold into_range. change (1 - 1 - 0 + 1) with 1. rewrite Z.mod_1_r.
  unfold bind at 1. unfold while_rejected. cbn [tape].
  change (0 + 0) with 0. now rewrite resample_stuck.
Qed.

Lemma rule_for_one_vertex (r : string) (self : ChaosGame F) (v : F * F)
    (h : Z * Z) (n : nat) p w :
  shape self = 1 -> vertices self = [v] ->
  rule_for add mul r self (S n) p h w = Starved \/
  exists self1 p1 w1,
    shape self1 = 1 /\ vertices self1 = [v] /\
    rule_for add mul r self (S n) p h w
    = rule_for add mul r self1 n p1 (remember h 0) w1.
Proof.
  intros Hs Hv.
  destruct (refused r 1 h 0) eqn:Hr;
    [left; now apply rule_for_stuck |].
  destruct (tape w) as [| x t] eqn:Tw.
  { left. cbn [rule_for]. unfold bind at 1. unfold randint.
    rewrite Hs, Tw. reflexivity. }
  right. cbn [rule_for]. unfold bind at 1. unfold randint.
  rewrite Hs, Tw. change (1 - 1 <? 0) with false. cbv iota.
  unfold into_range. change (1 - 1 - 0 + 1) with 1. rewrite Z.mod_1_r.
  change (0 + 0) with 0.
  unfold bind at 1. rewrite while_rejected_accept by exact Hr.
  unfold bind at 1. unfold bound_vertex, bind, observe, getitem.
  rewrite Hv. cbn [subscript List.length Z.of_nat]. cbn. unfold ret.
  do 3 eexists. split; [| split; [| reflexivity]].
  - exact Hs.
  - exact Hv.
Qed.

(** X14 (one vertex). With a single vertex, the rejection loop of rules r1 to
    r4 cannot end once the rule refuses index 0: whatever finite sequence of
    random numbers the source supplies, [play(k)] uses it up without
    returning and without raising, under r2 and r3 for k >= 1, under r1 for
    k >= 2 and under r4 for k >= 3. *)
Theorem play_one_vertex_never_returns (self : ChaosGame F) (v : F * F)
    (k : Z) (w : world) :
  shape self = 1 -> vertices self = [v] ->
  (rule self = "r2"%string \/ rule self = "r3"%string) /\ 1 <= k \/
  rule self = "r1"%string /\ 2 <= k \/
  rule self = "r4"%string /\ 3 <= k ->
  play add mul self k w = Starved.
Proof.
  intros Hs Hv Hk. unfold play.
  assert (Draw : forall (c : Z -> M (ChaosGame F)) w0,
            (forall i w1, c i w1 = Starved) ->
            bind (randint 0 (shape self - 1)) c w0 = Starved).
  { intros c w0 Hc. unfold bind.
    destruct (randint 0 (shape self - 1) w0) as [[i w1] | |] eqn:R;
      [apply Hc | | reflexivity].
    unfold randint in R. rewrite Hs in R. change (1 - 1 <? 0) with false in R.
    cbv iota in R. destruct (tape w0); discriminate R. }
  destruct Hk as [[[R | R] Hk] | [[R Hk] | [R Hk]]]; rewrite R;
    cbn [String.eqb Ascii.eqb Bool.eqb].
  - unfold _r2_play. apply Draw. intros i w1.
    rewrite (r2_for_rule _ _ _ _ _ (-2)).
    replace (Z.to_nat k) with (S (Z.to_nat (k - 1))) by lia.
    now apply rule_for_stuck.
  - unfold _r2_play. apply Draw. intros i w1.
    rewrite (r3_for_rule _ _ _ _ _ (-2)).
    replace (Z.to_nat k) with (S (Z.to_nat (k - 1))) by lia.
    now apply rule_for_stuck.
  - unfold _r1_play. apply Draw. intros i w1.
    rewrite (r1_for_rule _ _ _ _ _ (-2)).
    replace (Z.to_nat k) with (S (S (Z.to_nat (k - 2)))) by lia.
    destruct (rule_for_one_vertex "r1" self v (-2, -2)
                (S (Z.to_nat (k - 2))) (start self) w1 Hs Hv)
      as [E | (s1 & p1 & w2 & Hs1 & Hv1 & E)]; rewrite E; [reflexivity |].
    now apply rule_for_stuck.
  - unfold _r4_play. rewrite r4_for_rule.
    replace (Z.to_nat k) with (S (S (S (Z.to_nat (k - 3))))) by lia.
    destruct (rule_for_one_vertex "r4" self v (-2, -1)
                (S (S (Z.to_nat (k - 3)))) (start self) w Hs Hv)
      as [E | (s1 & p1 & w1 & Hs1 & Hv1 & E)]; rewrite E; [reflexivity |].
    destruct (rule_for_one_vertex "r4" s1 v (remember (-2, -1) 0)
                (S (Z.to_nat (k - 3))) p1 w1 Hs1 Hv1)
      as [E2 | (s2 & p2 & w2 & Hs2 & Hv2 & E2)]; rewrite E2; [reflexivity |].
    now apply rule_for_stuck.
Qed.

End Rules.

(** ** Runs of the rational engine *)

Lemma r1_never_repeats_witness :
  exists self' w',
    play_Q (triangle "r1") 3 {| tape := [1; 0; 0; 2; 2; 0]; trace := [] |}
    = Done (self', w') /\
    exists indices,
      trace w' = [] ++ indices /\
      List.length indices = Z.to_nat 3 /\
      forall pre a b post, indices = pre ++ a :: b :: post -> b <> a.
Proof.
  do 2 eexists. split; [lazy; reflexivity |].
  eapply (r1_never_repeats Qplus Qmult (triangle "r1") 3
            {| tape := [1; 0; 0; 2; 2; 0]; trace := [] |});
    [reflexivity | lazy; reflexivity].
Defined.

Lemma r2_r3_never_step_witness :
  exists self' w',
    play_Q (triangle "r3") 2 {| tape := [1; 0; 1; 2]; trace := [] |}
    = Done (self', w') /\
    exists indices,
      trace w' = [] ++ indices /\
      List.length indices = Z.to_nat 2 /\
      forall pre a b post,
        indices = pre ++ a :: b :: post ->
        (rule (triangle "r3") = "r2"%string -> b <> (a - 1) mod 3) /\
        (rule (triangle "r3") = "r3"%string -> b <> (a + 1) mod 3).
Proof.
  do 2 eexists. split; [lazy; reflexivity |].
  eapply (r2_r3_never_step Qplus Qmult (triangle "r3") 2
            {| tape := [1; 0; 1; 2]; trace := [] |});
    [right; reflexivity | lazy; reflexivity].
Defined.

Lemma play_only_appends_witness :
  exists self' w',
    play_Q (triangle "r4") 2 {| tape := [2; 2]; trace := [] |}
    = Done (self', w') /\
    same_configuration (triangle "r4") self' /\
    exists new, points self' = points (triangle "r4") ++ new.
Proof.
  do 2 eexists. split; [lazy; reflexivity |].
  eapply (play_only_appends Qplus Qmult (triangle "r4") 2
            {| tape := [2; 2]; trace := [] |}).
  lazy. reflexivity.
Defined.

Lemma play_chooses_vertices_witness :
  exists self' w',
    play_Q (triangle "r0") 2 {| tape := [7; -1]; trace := [] |}
    = Done (self', w') /\
    exists indices,
      trace w' = [] ++ indices /\
      Forall (fun i => 0 <= i < 3 /\
                       exists v, subscript (vertices (triangle "r0")) i = Some v /\
                                 In v (vertices (triangle "r0"))) indices.
Proof.
  do 2 eexists. split; [lazy; reflexivity |].
  eapply (play_chooses_vertices Qplus Qmult (triangle "r0") 2
            {| tape := [7; -1]; trace := [] |});
    [cbn; auto | lazy; reflexivity].
Defined.

Lemma play_consumes_witness :
  exists self' w',
    play_Q (triangle "r0") 2 {| tape := [0; 1; 2]; trace := [] |}
    = Done (self', w') /\
    exists used,
      [0; 1; 2] = used ++ tape w' /\
      (Z.to_nat 2 <= List.length used)%nat /\
      (rule (triangle "r0") = "r0"%string -> List.length used = Z.to_nat 2).
Proof.
  do 2 eexists. split; [lazy; reflexivity |].
  eapply (play_consumes Qplus Qmult (triangle "r0") 2
            {| tape := [0; 1; 2]; trace := [] |});
    [cbn; auto | lazy; reflexivity].
Defined.

Lemma play_without_iterations_witness :
  exists self' w',
    play_Q (triangle "r2") 0 {| tape := [1; 2]; trace := [] |}
    = Done (self', w') /\
    self' = triangle "r2" /\ trace w' = [] /\
    (rule (triangle "r2") = "r0"%string \/ rule (triangle "r2") = "r4"%string ->
     tape w' = [1; 2]) /\
    (rule (triangle "r2") = "r1"%string \/ rule (triangle "r2") = "r2"%string \/
     rule (triangle "r2") = "r3"%string -> exists r, [1; 2] = r :: tape w').
Proof.
  do 2 eexists. split; [lazy; reflexivity |].
  eapply (play_without_iterations Qplus Qmult (triangle "r2") 0
            {| tape := [1; 2]; trace := [] |});
    [lia | cbn; auto | lazy; reflexivity].
Defined.

Lemma play_empty_range_raises_witness :
  play_Q {| rule := "r4"; ratio := (1 # 2)%Q; vertices := []; shape := 0;
            start := (0%Q, 0%Q); points := [] |}
         1 {| tape := [0; 1]; trace := [] |}
  = Raise ValueError.
Proof.
  apply (play_empty_range_raises Qplus Qmult); cbn; [lia | auto 6 | lia].
Defined.

Lemma play_one_vertex_never_returns_witness :
  play_Q {| rule := "r1"; ratio := (1 # 2)%Q; vertices := [(0%Q, 1%Q)];
            shape := 1; start := (0%Q, 0%Q); points := [] |}
         2 {| tape := [4; 0; 3; 1; 2; 5; 8; 13]; trace := [] |}
  = Starved.
Proof.
  apply (play_one_vertex_never_returns Qplus Qmult _ (0%Q, 1%Q));
    cbn; [reflexivity | reflexivity |].
  right. left. split; [reflexivity | lia].
Defined.

(** ** The constructor and the vertex count *)

Section Constructor.

Local Open Scope R_scope.



End Constructor.

End ChaosMore.

(* ================================================================== *)
(** * Part VII: the Peano curve generator                              *)
(* ================================================================== *)

Module PeanoFacts.
Import Grid Peano.

(** ** The loop ends at index 30 *)

Lemma peano_for_stops : forall pre rest self l,
  ~ In 30 pre ->
  peano_for (pre ++ 30 :: rest) self l = peano_for pre self l.
Proof.
  induction pre as [| i pre IH]; intros rest self l Hn.
  - reflexivity.
  - cbn [app peano_for].
    destruct (Z.eqb_spec i 30) as [-> | _]; [exfalso; apply Hn; now left |].
    destruct (peano_body i self l) as [self1 l1].
    apply IH. intros H. apply Hn. now right.
Qed.

Lemma range_beyond_30 (n : Z) :
  30 < n ->
  exists rest, Hilbert.range n = Hilbert.range 30 ++ 30 :: rest.
Proof.
  intros Hn. unfold Hilbert.range.
  replace (Z.to_nat n) with (30 + S (Z.to_nat (n - 31)))%nat by lia.
  rewrite seq_app, map_app. cbn [seq map Nat.add].
  change (Z.to_nat 30) with 30%nat. eexists. reflexivity.
Qed.

Lemma not_30_below_30 : ~ In 30 (Hilbert.range 30).
Proof. intros H. apply HilbertFacts.range_In in H. lia. Qed.

(** X19 (step cap). For every order >= 2 the generator stops at the
    [return] of index 30: whatever the order, the object holds the same 31
    points and has printed the same lines as for order 2, far fewer than the
    9^order steps of its loop; and the cell (2, 6) is in the list twice, at
    positions 24 and 30. *)
Theorem peano_capped_at_30 (order : Z) :
  2 <= order ->
  exists c c2,
    __init__ order = Some c /\ __init__ 2 = Some c2 /\
    points c = points c2 /\ stdout c = stdout c2 /\
    List.length (points c) = 31%nat /\
    nth_error (points c) 24 = Some (2, 6) /\
    nth_error (points c) 30 = Some (2, 6).
Proof.
  intros Ho.
  assert (H81 : 30 < 9 ^ order).
  { apply Z.lt_le_trans with (9 ^ 2); [reflexivity |].
    apply Z.pow_le_mono_r; lia. }
  destruct (range_beyond_30 (9 ^ order) H81) as [rest E].
  unfold __init__, _generate_peano_curve. cbn [points N Chaos.subscript].
  change (Chaos.subscript [(0, 0)] 0) with (Some (0, 0)). cbv iota.
  rewrite E, peano_for_stops by exact not_30_below_30.
  generalize (9 ^ order). intros n.
  do 2 eexists. split; [reflexivity |].
  split; [vm_compute; reflexivity |].
  repeat (split; [vm_compute; reflexivity |]).
  vm_compute. reflexivity.
Qed.

Lemma peano_capped_at_30_witness :
  exists c c2,
    __init__ 3 = Some c /\ __init__ 2 = Some c2 /\
    points c = points c2 /\ stdout c = stdout c2 /\
    List.length (points c) = 31%nat /\
    nth_error (points c) 24 = Some (2, 6) /\
    nth_error (points c) 30 = Some (2, 6).
Proof. apply (peano_capped_at_30 3). lia. Defined.

(** ** Every step is a unit step *)

Lemma is_path_snoc : forall pre p q,
  is_path (pre ++ [p]) -> adjacent p q -> is_path ((pre ++ [p]) ++ [q]).
Proof.
  induction pre as [| a pre IH]; intros p q H A.
  - cbn. auto.
  - cbn [app] in *. destruct pre as [| b pre].
    + cbn in *. tauto.
    + cbn [app is_path] in *. destruct H as [Hab H].
      split; [exact Hab |]. now apply IH.
Qed.

Lemma peano_body_step (index : Z) (self : PeanoCurve) (l : locals) self1 l1 :
  peano_body index self l = (self1, l1) ->
  points self1 = points self ++ [coords l1] /\
  adjacent (coords l) (coords l1).
Proof.
  unfold peano_body.
  pose proof (Z.mod_pos_bound index 9 ltac:(lia)) as Hm.
  set (i := index mod 9) in *.
  unfold adjacent, _up, _down, _left, _right.
  destruct (Z.eqb_spec i 0), (Z.eqb_spec i 1), (Z.eqb_spec i 6),
    (Z.eqb_spec i 7), (Z.eqb_spec i 2), (Z.eqb_spec i 5), (Z.eqb_spec i 3),
    (Z.eqb_spec i 4), (Z.eqb_spec i 8); try lia; cbn [orb];
    repeat match goal with
           | |- context [if ?b then _ else _] => destruct b
           end;
    intros [= <- <-]; cbn [points append print coords fst snd];
    (split; [reflexivity | lia]).
Qed.

Lemma peano_for_path : forall indices self l pre,
  points self = pre ++ [coords l] -> is_path (points self) ->
  is_path (points (peano_for indices self l)).
Proof.
  induction indices as [| i indices IH]; intros self l pre E P; [exact P |].
  cbn [peano_for]. destruct (i =? 30); [exact P |].
  destruct (peano_body i self l) as [self1 l1] eqn:B.
  apply peano_body_step in B. destruct B as [E1 A].
  apply (IH self1 l1 (points self)); [exact E1 |].
  rewrite E1, E. apply is_path_snoc; [now rewrite <- E | exact A].
Qed.

(** X20 (unit steps). For every order >= 0 the constructor returns, and
    each point of its list is a neighbour of the one before it: the generator
    moves one cell up, down, left or right at every step. *)
Theorem peano_unit_steps (order : Z) :
  0 <= order ->
  exists c, __init__ order = Some c /\ is_path (points c).
Proof.
  intros _. unfold __init__, _generate_peano_curve. cbn [points N].
  change (Chaos.subscript [(0, 0)] 0) with (Some (0, 0)). cbv iota.
  eexists. split; [reflexivity |].
  apply (peano_for_path _ _ _ []); [reflexivity | exact I].
Qed.

Lemma peano_unit_steps_witness :
  exists c, __init__ 1 = Some c /\ is_path (points c).
Proof. apply (peano_unit_steps 1). lia. Defined.

End PeanoFacts.

(* ================================================================== *)
(** * Part VIII: dithering along the Hilbert curve                     *)
(* ================================================================== *)

Module DitherFacts.
Import Dither.

(** ** Subscripts and replacement *)

Lemma position_in_range (len i : Z) :
  0 <= i < len -> position len i = Some (Z.to_nat i).
Proof.
  intros H. unfold position.
  destruct (Z.leb_spec 0 i); [| lia].
  now destruct (Z.ltb_spec i len); [| lia].
Qed.

Lemma replace_nth_length {A : Type} (l : list A) : forall n a,
  List.length (replace_nth l n a) = List.length l.
Proof.
  induction l as [| b l IH]; intros [| n] a; cbn; auto.
Qed.

Lemma nth_error_replace_same {A : Type} (l : list A) : forall n a,
  (n < List.length l)%nat -> nth_error (replace_nth l n a) n = Some a.
Proof.
  induction l as [| b l IH]; intros [| n] a H; cbn in *; try lia; auto.
  apply IH. lia.
Qed.

Lemma nth_error_replace_other {A : Type} (l : list A) : forall n m a,
  n <> m -> nth_error (replace_nth l n a) m = nth_error l m.
Proof.
  induction l as [| b l IH]; intros [| n] [| m] a H; cbn; auto;
    try contradiction.
Qed.

Lemma Forall_replace_nth {A : Type} (P : A -> Prop) (l : list A) :
  forall n a, Forall P l -> P a -> Forall P (replace_nth l n a).
Proof.
  induction l as [| b l IH]; intros [| n] a H Pa; cbn; auto;
    inversion H; subst; constructor; auto.
Qed.

Section Pixels.

Context {F : Type} (zero one half : F) (add sub : F -> F -> F)
        (leb : F -> F -> bool).

Lemma sized_row (img : list (list F)) (rows cols y : Z) :
  sized img rows cols -> 0 <= y < rows ->
  exists row, nth_error img (Z.to_nat y) = Some row /\
              Z.of_nat (List.length row) = cols.
Proof.
  intros [Hr Hc] Hy.
  destruct (nth_error img (Z.to_nat y)) as [row |] eqn:E.
  - exists row. split; [reflexivity |].
    rewrite Forall_forall in Hc. apply Hc. eapply nth_error_In; eauto.
  - apply nth_error_None in E. lia.
Qed.

(** A pixel inside the array can be read. *)
Lemma getitem2_inside (img : list (list F)) (rows cols y x : Z) :
  sized img rows cols -> 0 <= y < rows -> 0 <= x < cols ->
  exists i, getitem2 img y x = Some i.
Proof.
  intros S Hy Hx. destruct (sized_row img rows cols y S Hy) as (row & E & L).
  unfold getitem2. destruct S as [Hr _].
  rewrite Hr, position_in_range, E, L, position_in_range by lia.
  destruct (nth_error row (Z.to_nat x)) as [i |] eqn:Ex; [eauto |].
  apply nth_error_None in Ex. lia.
Qed.

(** Writing a pixel inside the array: the size is kept, the pixel holds the
    new value, and every other pixel holds what it held. *)
Lemma setitem2_inside (img : list (list F)) (rows cols y x : Z) (v : F) :
  sized img rows cols -> 0 <= y < rows -> 0 <= x < cols ->
  exists img',
    setitem2 img y x v = Some img' /\
    sized img' rows cols /\
    getitem2 img' y x = Some v /\
    forall y' x', 0 <= y' < rows -> 0 <= x' < cols ->
                  (x', y') <> (x, y) ->
                  getitem2 img' y' x' = getitem2 img y' x'.
Proof.
  intros S Hy Hx. destruct (sized_row img rows cols y S Hy) as (row & E & L).
  pose proof S as [Hr Hc].
  unfold setitem2.
  rewrite Hr, position_in_range, E, L, position_in_range by lia.
  eexists. split; [reflexivity |].
  set (row' := replace_nth row (Z.to_nat x) v).
  set (img' := replace_nth img (Z.to_nat y) row').
  assert (Lr : List.length row' = List.length row)
    by apply replace_nth_length.
  assert (Li : List.length img' = List.length img)
    by apply replace_nth_length.
  assert (Ey : nth_error img' (Z.to_nat y) = Some row').
  { apply nth_error_replace_same. lia. }
  assert (S' : sized img' rows cols).
  { split; [lia |]. apply Forall_replace_nth; [exact Hc | lia]. }
  split; [exact S' |]. split.
  - unfold getitem2.
    rewrite Li, Hr, position_in_range, Ey, Lr, L, position_in_range by lia.
    apply nth_error_replace_same. lia.
  - intros y' x' Hy' Hx' Ne. unfold getitem2.
    rewrite Li, Hr, position_in_range by lia.
    destruct (Z.eq_dec y' y) as [-> | Ny].
    + rewrite Ey, E, Lr, L, position_in_range by lia.
      apply nth_error_replace_other. intros H.
      apply Ne. f_equal. lia.
    + unfold img'. rewrite nth_error_replace_other by lia. reflexivity.
Qed.

(** ** The loop *)

(** Over points inside the array, the loop returns; the size is kept, every
    pixel it visited holds 0 or 1, and every other pixel is unchanged. *)
Lemma dither_for_inside (rows cols : Z) : forall ps img e,
  sized img rows cols ->
  Forall (fun p => 0 <= fst p < cols /\ 0 <= snd p < rows) ps ->
  exists img' e',
    dither_for zero one half add sub leb ps img e = Some (img', e') /\
    sized img' rows cols /\
    forall x y, 0 <= x < cols -> 0 <= y < rows ->
      (In (x, y) ps ->
       getitem2 img' y x = Some zero \/ getitem2 img' y x = Some one) /\
      (~ In (x, y) ps -> getitem2 img' y x = getitem2 img y x).
Proof.
  induction ps as [| [x0 y0] ps IH]; intros img e S Hps.
  - exists img, e. split; [reflexivity |]. split; [exact S |].
    intros x y _ _. split; [intros [] | reflexivity].
  - inversion Hps as [| ? ? [Hx0 Hy0] Hps']; subst. cbn [fst snd] in *.
    destruct (getitem2_inside img rows cols y0 x0 S Hy0 Hx0) as [i Ei].
    cbn [dither_for]. rewrite Ei.
    set (o := if leb (add i e) half then zero else one).
    destruct (setitem2_inside img rows cols y0 x0 o S Hy0 Hx0)
      as (img1 & E1 & S1 & G1 & O1).
    rewrite E1.
    destruct (IH img1 (add e (sub i o)) S1 Hps')
      as (img' & e' & E' & S' & H').
    exists img', e'. split; [exact E' |]. split; [exact S' |].
    intros x y Hx Hy. destruct (H' x y Hx Hy) as [Hin Hout].
    assert (Dec : In (x, y) ps \/ ~ In (x, y) ps).
    { destruct (in_dec (fun p q : Z * Z =>
                  ltac:(decide equality; apply Z.eq_dec)) (x, y) ps); auto. }
    split.
    + intros [Eq | Hi]; [| now apply Hin].
      destruct Dec as [Hi | Hn]; [now apply Hin |].
      injection Eq as -> ->. rewrite (Hout Hn), G1.
      unfold o. destruct (leb (add i e) half); auto.
    + intros Hn. rewrite Hout by (intros Hi; apply Hn; now right).
      apply O1; auto. intros Eq. apply Hn. left. now symmetry.
Qed.

(** ** The table of the Hilbert curve, as [Dithering] receives it *)

Lemma hilbert_table (order : Z) :
  1 <= order ->
  exists tail,
    HilbertCurve order = Some ((0, 0) :: tail) /\
    forall x y, In (x, y) tail <->
                0 <= x < 2 ^ order /\ 0 <= y < 2 ^ order.
Proof.
  intros Ho. unfold HilbertCurve.
  rewrite HilbertFacts.init_points by lia. cbn [option_map Hilbert.points].
  eexists. split; [reflexivity |].
  destruct (HilbertFacts.x2xy_grid order Ho) as (Hr & _ & Hs).
  intros x y. rewrite in_map_iff. split.
  - intros (i & E & Ii). apply HilbertFacts.range_In in Ii.
    destruct (Hr i Ii) as (x' & y' & E' & Hx & Hy).
    rewrite HilbertFacts.x2xy_decode, E in E' by lia.
    assert (E2 : (x, y) = (x', y')) by congruence.
    apply pair_equal_spec in E2. destruct E2 as [-> ->]. auto.
  - intros [Hx Hy]. destruct (Hs x y Hx Hy) as (i & Ii & E).
    exists i. rewrite HilbertFacts.x2xy_decode in E by lia.
    split; [congruence | now apply HilbertFacts.range_In].
Qed.

Lemma log2_block (rows : Z) :
  2 <= rows -> 1 <= Z.log2 rows /\ 2 <= 2 ^ Z.log2 rows <= rows.
Proof.
  intros H. assert (L : 1 <= Z.log2 rows).
  { change 1 with (Z.log2 2). now apply Z.log2_le_mono. }
  split; [exact L |]. split.
  - change 2 with (2 ^ 1) at 1. apply Z.pow_le_mono_r; lia.
  - apply Z.log2_spec. lia.
Qed.

(** The whole call, for any pixels: the first point, then the loop. *)
Lemma dithering_block (img : list (list F)) (rows cols : Z) :
  sized img rows cols -> 2 <= rows -> 2 ^ Z.log2 rows <= cols ->
  exists img' e',
    HilbertCurve (Z.log2 rows) <> None /\
    (forall ps, HilbertCurve (Z.log2 rows) = Some ps ->
                dithering zero one half add sub leb ps img
                = Some (img', e')) /\
    sized img' rows cols /\
    forall x y, 0 <= x < cols -> 0 <= y < rows ->
      (x < 2 ^ Z.log2 rows /\ y < 2 ^ Z.log2 rows ->
       getitem2 img' y x = Some zero \/ getitem2 img' y x = Some one) /\
      (~ (x < 2 ^ Z.log2 rows /\ y < 2 ^ Z.log2 rows) ->
       getitem2 img' y x = getitem2 img y x).
Proof.
  intros Hs Hrows Hcols.
  destruct (log2_block rows Hrows) as (Ho & Hn2 & Hn).
  set (n := 2 ^ Z.log2 rows) in *.
  destruct (hilbert_table (Z.log2 rows) Ho) as (tail & Et & Ht). fold n in Ht.
  destruct (getitem2_inside img rows cols 0 0 Hs ltac:(lia) ltac:(lia))
    as [i0 E0].
  set (o0 := if leb i0 half then zero else one).
  destruct (setitem2_inside img rows cols 0 0 o0 Hs ltac:(lia) ltac:(lia))
    as (img1 & E1 & S1 & G1 & O1).
  assert (Hps : Forall (fun p => 0 <= fst p < cols /\ 0 <= snd p < rows) tail).
  { apply Forall_forall. intros [x y] Hin. apply Ht in Hin. cbn. lia. }
  destruct (dither_for_inside rows cols tail img1
              (sub i0 o0) S1 Hps) as (img' & e' & E' & Hs' & H').
  exists img', e'. split; [rewrite Et; discriminate |]. split.
  - intros ps Eps. rewrite Et in Eps. injection Eps as <-.
    unfold dithering.
    replace (Chaos.subscript ((0, 0) :: tail) 0) with (Some (0, 0)).
    + rewrite E0. fold o0. rewrite E1. exact E'.
    + unfold Chaos.subscript. cbn [nth_error Z.to_nat].
      destruct (Z.ltb_spec 0 (Z.of_nat (List.length ((0, 0) :: tail))))
        as [_ | Hlen]; [reflexivity |].
      cbn [List.length] in Hlen. lia.
  - split; [exact Hs' |]. intros x y Hx Hy.
    destruct (H' x y Hx Hy) as [Hin Hout]. split.
    + intros Hb. apply Hin. apply Ht. lia.
    + intros Hb. rewrite Hout by (intros Hi; apply Ht in Hi; lia).
      apply O1; auto. intros Eq. injection Eq as -> ->. lia.
Qed.

(** X21 (binarised block). Let the array have [rows] >= 2 rows of [cols]
    pixels, and let N be the largest power of 2 that is at most [rows], with
    N <= [cols].  Then [Dithering(image, HilbertCurve)] returns, keeps the
    size of the array, leaves 0 or 1 in every pixel of the N x N block at the
    origin, and leaves every pixel outside that block as it was.  (For any
    pixel type and any comparison.) *)
Theorem dithering_binarizes_block (img : list (list F)) (rows cols : Z) :
  sized img rows cols -> 2 <= rows -> 2 ^ Z.log2 rows <= cols ->
  exists img',
    __init__ zero one half add sub leb img HilbertCurve = Some img' /\
    sized img' rows cols /\
    forall x y, 0 <= x < cols -> 0 <= y < rows ->
      (x < 2 ^ Z.log2 rows /\ y < 2 ^ Z.log2 rows ->
       getitem2 img' y x = Some zero \/ getitem2 img' y x = Some one) /\
      (~ (x < 2 ^ Z.log2 rows /\ y < 2 ^ Z.log2 rows) ->
       getitem2 img' y x = getitem2 img y x).
Proof.
  intros Hs Hrows Hcols.
  destruct (dithering_block img rows cols Hs Hrows Hcols)
    as (img' & e' & Hc & Hd & Hs' & H').
  exists img'. split; [| split; assumption].
  unfold __init__. destruct Hs as [Hr _]. rewrite Hr.
  destruct (Z.leb_spec rows 0); [lia |].
  destruct (HilbertCurve (Z.log2 rows)) as [ps |]; [| contradiction].
  now rewrite (Hd ps eq_refl).
Qed.

(** ** An array narrower than the block *)

Lemma position_beyond (len i : Z) : 0 <= len <= i -> position len i = None.
Proof.
  intros H. unfold position.
  destruct (Z.leb_spec 0 i); [| lia].
  destruct (Z.ltb_spec i len); [lia |].
  destruct (Z.ltb_spec i 0); [lia |].
  cbn [andb]. now rewrite andb_false_r.
Qed.

Lemma setitem2_sized (img img' : list (list F)) (rows cols y x : Z) (v : F) :
  sized img rows cols -> setitem2 img y x v = Some img' ->
  sized img' rows cols.
Proof.
  intros [Hr Hc]. unfold setitem2.
  destruct (position _ y) as [r |]; [| discriminate].
  destruct (nth_error img r) as [row |] eqn:Er; [| discriminate].
  destruct (position _ x) as [c |]; [| discriminate].
  intros E. injection E as <-. split.
  - now rewrite replace_nth_length.
  - apply Forall_replace_nth; [exact Hc |].
    rewrite replace_nth_length.
    rewrite Forall_forall in Hc. apply Hc. eapply nth_error_In; eauto.
Qed.

Lemma getitem2_beyond (img : list (list F)) (rows cols y x : Z) :
  sized img rows cols -> cols <= x -> getitem2 img y x = None.
Proof.
  intros [Hr Hc] Hx. unfold getitem2.
  destruct (position _ y) as [r |]; [| reflexivity].
  destruct (nth_error img r) as [row |] eqn:Er; [| reflexivity].
  rewrite Forall_forall in Hc.
  rewrite (Hc row (nth_error_In _ _ Er)), position_beyond; [reflexivity |].
  pose proof (Hc row (nth_error_In _ _ Er)). lia.
Qed.

(** One point to the right of the array stops the loop with an error. *)
Lemma dither_for_beyond (rows cols x y : Z) : forall ps img e,
  sized img rows cols -> In (x, y) ps -> cols <= x ->
  dither_for zero one half add sub leb ps img e = None.
Proof.
  induction ps as [| [x' y'] ps IH]; intros img e Hs Hin Hx; [easy |].
  cbn [dither_for].
  destruct (getitem2 img y' x') as [i |] eqn:Ei; [| reflexivity].
  cbn zeta.
  destruct (setitem2 img y' x' _) as [img1 |] eqn:E1; [| reflexivity].
  destruct Hin as [E | Hin].
  - injection E as -> ->.
    rewrite (getitem2_beyond img rows cols y x Hs Hx) in Ei. discriminate.
  - apply IH; [| exact Hin | exact Hx].
    eapply setitem2_sized; eauto.
Qed.

(** X22 (narrow array). If the array has [rows] >= 2 rows of [cols] pixels
    and fewer columns than the side N of the curve (the largest power of 2
    that is at most [rows]), [Dithering(image, HilbertCurve)] raises: the
    curve reaches a column the array does not have. *)
Theorem dithering_narrow_raises (img : list (list F)) (rows cols : Z) :
  sized img rows cols -> 2 <= rows -> cols < 2 ^ Z.log2 rows ->
  __init__ zero one half add sub leb img HilbertCurve = None.
Proof.
  intros Hs Hrows Hcols.
  destruct (log2_block rows Hrows) as (Ho & Hn2 & Hn).
  destruct (hilbert_table (Z.log2 rows) Ho) as (tail & Et & Ht).
  assert (Hc0 : 0 <= cols).
  { destruct (sized_row img rows cols 0 Hs ltac:(lia)) as (row & _ & L).
    lia. }
  unfold __init__. pose proof Hs as [Hr _]. rewrite Hr.
  destruct (Z.leb_spec rows 0); [lia |].
  rewrite Et. unfold dithering.
  destruct (Chaos.subscript ((0, 0) :: tail) 0) as [[x_0 y_0] |] eqn:E0;
    [| reflexivity].
  destruct (getitem2 img y_0 x_0) as [i_0 |]; [| reflexivity].
  cbn zeta.
  destruct (setitem2 img y_0 x_0 _) as [img1 |] eqn:E1; [| reflexivity].
  cbn [tl].
  rewrite (dither_for_beyond rows cols cols 0 tail img1); [reflexivity | | |].
  - eapply setitem2_sized; eauto.
  - apply Ht. lia.
  - lia.
Qed.

End Pixels.

Lemma dithering_binarizes_block_witness :
  exists img',
    __init__ 0%Q 1%Q (1 # 2)%Q Qplus Qminus Qle_bool
      [[1 # 4; 3 # 4]; [1 # 2; 1]; [1 # 3; 1 # 5]]%Q HilbertCurve
    = Some img' /\
    sized img' 3 2 /\
    forall x y, 0 <= x < 2 -> 0 <= y < 3 ->
      (x < 2 ^ Z.log2 3 /\ y < 2 ^ Z.log2 3 ->
       getitem2 img' y x = Some 0%Q \/ getitem2 img' y x = Some 1%Q) /\
      (~ (x < 2 ^ Z.log2 3 /\ y < 2 ^ Z.log2 3) ->
       getitem2 img' y x
       = getitem2 [[1 # 4; 3 # 4]; [1 # 2; 1]; [1 # 3; 1 # 5]]%Q y x).
Proof.
  apply (dithering_binarizes_block 0%Q 1%Q (1 # 2)%Q Qplus Qminus Qle_bool
           [[1 # 4; 3 # 4]; [1 # 2; 1]; [1 # 3; 1 # 5]]%Q 3 2).
  - split; [reflexivity | repeat constructor].
  - lia.
  - vm_compute. discriminate.
Defined.

Lemma dithering_narrow_raises_witness :
  __init__ 0%Q 1%Q (1 # 2)%Q Qplus Qminus Qle_bool
    [[1 # 4]; [3 # 4]]%Q HilbertCurve = None.
Proof.
  apply (dithering_narrow_raises 0%Q 1%Q (1 # 2)%Q Qplus Qminus Qle_bool
           [[1 # 4]; [3 # 4]]%Q 2 1).
  - split; [reflexivity | repeat constructor].
  - lia.
  - vm_compute. reflexivity.
Defined.

End DitherFacts.
